(** * An LRU cache with per-entry deadlines (package cache, lru.go)

    The cache keeps two structures in lockstep: [hash], a map from keys to
    pointers to list elements, and [lst], a doubly linked list of those
    elements ordered from most to least recently used.  Every element
    points to a [listEntry] that is mutated in place.

    The embedding keeps the pointers: an element (together with the
    [listEntry] it points to) lives at a location of [elems]; [hash] stores
    locations and [lst] is the sequence of the locations linked into the
    list, front first.  A pointer that addresses nothing makes the
    operation panic, as a nil dereference does in Go; the development shows
    that no reachable cache ever does.

    [time.Now()] is an explicit argument [now] of the operations that read
    the clock; instants and durations are integer nanosecond counts.  The
    mutex is not modelled: every public operation holds it from entry to
    return, so operations are atomic steps. *)

From Stdlib Require Import ZArith Lia.
From stdpp Require Import base option list gmap fin_maps.

(** ** Time (package time) *)

Definition Time : Type := Z.
Definition Duration : Type := Z.

Definition Millisecond : Duration := 1000000%Z.
Definition Second : Duration := (1000 * Millisecond)%Z.
Definition Minute : Duration := (60 * Second)%Z.

(** [t.Add(d)] and [t.Before(u)], on instants as unbounded integers: a
    clock reading plus an [int64] duration stays within what [time.Time]
    represents. *)
Definition Add (t : Time) (d : Duration) : Time := (t + d)%Z.
Definition Before (t u : Time) : bool := bool_decide (t < u)%Z.

(** ** Constants of the package *)

Definition DefaultMaxLen : Z := 10000%Z.
Definition DefaultCacheTime : Duration := Minute.

(** ** container/list, as far as the cache uses it

    A [*list.Element] is a location; the list is the sequence of the
    elements linked into it, front first. *)

Definition loc : Type := positive.

Module List_.

(** [l.Remove(e)]: unlinks [e] if it belongs to [l]. *)
Definition Remove (e : loc) (l : list loc) : list loc :=
  filter (λ x, x ≠ e) l.

(** [l.MoveToFront(e)]: nothing happens if [e] is not an element of [l]
    or is already at the front. *)
Definition MoveToFront (e : loc) (l : list loc) : list loc :=
  if decide (e ∉ l) then l
  else if decide (head l = Some e) then l
  else e :: Remove e l.

(** [l.Back()]: the last element, or nil for an empty list. *)
Definition Back (l : list loc) : option loc := last l.

(** [l.Init()]: the empty list. *)
Definition Init : list loc := [].

End List_.

Section cache.

(** [Key] and [Value] are [interface{}] in the source.  Keys are the
    values a Go map accepts and finds again; [zero] is the nil
    interface value, which is itself a [Value]. *)
Context {Key : Type} `{Countable Key}.
Context {Value : Type} (zero : Value).

(** What a callback can act on: the state of the caller's program.  A
    callback runs while the mutex is held, so it cannot call back into the
    cache; it is a function on the world alone. *)
Context {World : Type}.

Definition OnEvicted : Type := Key → Value → World → World.

Record listEntry : Type := ListEntry {
  key : Key;
  value : Value;
  deadTime : Time;
}.

Record lruCache : Type := LruCache {
  maxLen : Z;
  onEvicted : option OnEvicted;
  lst : list loc;
  hash : gmap Key loc;
  cacheTime : Duration;
  (** the elements allocated so far and the entry each one points to *)
  elems : gmap loc listEntry;
}.

Record Config : Type := MkConfig {
  MaxLen : Z;
  Callback : option OnEvicted;
  CacheTime : Duration;
}.

Definition with_lst (f : list loc → list loc) (c : lruCache) : lruCache :=
  LruCache (maxLen c) (onEvicted c) (f (lst c)) (hash c) (cacheTime c) (elems c).
Definition with_hash (f : gmap Key loc → gmap Key loc) (c : lruCache) : lruCache :=
  LruCache (maxLen c) (onEvicted c) (lst c) (f (hash c)) (cacheTime c) (elems c).
Definition with_elems (f : gmap loc listEntry → gmap loc listEntry) (c : lruCache)
  : lruCache :=
  LruCache (maxLen c) (onEvicted c) (lst c) (hash c) (cacheTime c) (f (elems c)).

Definition set_value (v : Value) (en : listEntry) : listEntry :=
  ListEntry (key en) v (deadTime en).
Definition set_deadTime (d : Time) (en : listEntry) : listEntry :=
  ListEntry (key en) (value en) d.

(** ** The monad of the methods: receiver, caller's world, panic *)

Definition M (A : Type) : Type := lruCache → World → option (A * lruCache * World).

Definition ret {A} (a : A) : M A := λ c w, Some (a, c, w).
Definition bind {A B} (m : M A) (k : A → M B) : M B :=
  λ c w, match m c w with
         | Some (a, c', w') => k a c' w'
         | None => None
         end.
Definition self : M lruCache := λ c w, Some (c, c, w).
Definition modify (f : lruCache → lruCache) : M unit := λ c w, Some (tt, f c, w).

(** Reading the entry behind [elem.Value]. *)
Definition deref (e : loc) : M listEntry :=
  λ c w, match elems c !! e with
         | Some en => Some (en, c, w)
         | None => None
         end.
(** Assignment to a field of the entry behind [elem.Value]. *)
Definition assign (e : loc) (f : listEntry → listEntry) : M unit :=
  bind (deref e) (λ en, modify (with_elems (<[e := f en]>))).
(** [lru.onEvicted(k, v)] *)
Definition call (f : OnEvicted) (k : Key) (v : Value) : M unit :=
  λ c w, Some (tt, c, f k v w).

Notation "x <~ m ;; k" := (bind m (λ x, k))
  (at level 100, m at next level, right associativity).
Notation "m ;;; k" := (bind m (λ _, k))
  (at level 100, right associativity).

(** [lru.lst.PushFront(en)]: a new element, linked at the front.  The
    address is one no element has had; which one is not observable. *)
Definition PushFront (en : listEntry) : M loc :=
  c <~ self ;;
  let e := fresh (dom (elems c)) in
  modify (with_elems (<[e := en]>)) ;;;
  modify (with_lst (cons e)) ;;;
  ret e.

(** ** The source, function by function *)

Definition NewCacheWithConfig (config : Config) : lruCache :=
  let cacheTime :=
    if decide (CacheTime config < Millisecond)%Z then DefaultCacheTime
    else CacheTime config in
  {| maxLen := MaxLen config;
     onEvicted := Callback config;
     lst := [];
     hash := ∅;
     cacheTime := cacheTime;
     elems := ∅ |}.

Definition NewCache : lruCache :=
  NewCacheWithConfig (MkConfig DefaultMaxLen None DefaultCacheTime).

Definition removeElem (elem : option loc) : M unit :=
  match elem with
  | None => ret tt
  | Some e =>
      modify (with_lst (List_.Remove e)) ;;;
      entry <~ deref e ;;
      modify (with_hash (delete (key entry))) ;;;
      c <~ self ;;
      match onEvicted c with
      | Some f => call f (key entry) (value entry)
      | None => ret tt
      end
  end.

Definition lazyRemoveOldest : M unit :=
  c <~ self ;;
  if decide (Z.of_nat (size (hash c)) > maxLen c)%Z
  then removeElem (List_.Back (lst c))
  else ret tt.

Definition PutWithTimeout (k : Key) (v : Value) (t : Duration) (now : Time) : M unit :=
  let t := if decide (t < Second)%Z then Second else t in
  c <~ self ;;
  match hash c !! k with
  | Some elem =>
      modify (with_lst (List_.MoveToFront elem)) ;;;
      assign elem (set_value v) ;;;
      assign elem (set_deadTime (Add now t))
  | None =>
      elem <~ PushFront (ListEntry k v (Add now t)) ;;
      modify (with_hash (<[k := elem]>)) ;;;
      lazyRemoveOldest
  end.

Definition Put (k : Key) (v : Value) (now : Time) : M unit :=
  c <~ self ;;
  PutWithTimeout k v (cacheTime c) now.

Definition Get (k : Key) (now : Time) : M (Value * bool) :=
  c <~ self ;;
  match hash c !! k with
  | Some elem =>
      entry <~ deref elem ;;
      if Before (deadTime entry) now then
        removeElem (Some elem) ;;;
        ret (zero, false)
      else
        modify (with_lst (List_.MoveToFront elem)) ;;;
        entry' <~ deref elem ;;
        ret (value entry', true)
  | None => ret (zero, false)
  end.

Definition Del (k : Key) : M Value :=
  c <~ self ;;
  match hash c !! k with
  | Some elem =>
      entry <~ deref elem ;;
      removeElem (Some elem) ;;;
      ret (value entry)
  | None => ret zero
  end.

(** [hash] is never a nil map: the constructor and [Close] both assign a
    map, so the nil test of the source always fails. *)
Definition Len : M Z :=
  c <~ self ;;
  ret (Z.of_nat (size (hash c))).

Definition Close : M unit :=
  modify (with_hash (λ _, ∅)) ;;;
  modify (with_lst (λ _, List_.Init)).

(** ** The public operations as data, and sequences of them *)

Inductive op : Type :=
| OpPut (k : Key) (v : Value)
| OpPutWithTimeout (k : Key) (v : Value) (t : Duration)
| OpGet (k : Key)
| OpDel (k : Key)
| OpLen
| OpClose.

Inductive result : Type :=
| RUnit
| RGet (v : Value) (found : bool)
| RDel (v : Value)
| RLen (n : Z).

(** One call of a public method at clock reading [now]. *)
Definition exec (o : op) (now : Time) : M result :=
  match o with
  | OpPut k v => Put k v now ;;; ret RUnit
  | OpPutWithTimeout k v t => PutWithTimeout k v t now ;;; ret RUnit
  | OpGet k => r <~ Get k now ;; ret (RGet r.1 r.2)
  | OpDel k => v <~ Del k ;; ret (RDel v)
  | OpLen => n <~ Len ;; ret (RLen n)
  | OpClose => Close ;;; ret RUnit
  end.

Fixpoint run (tr : list (op * Time)) : M (list result) :=
  match tr with
  | [] => ret []
  | (o, now) :: tr' => r <~ exec o now ;; rs <~ run tr' ;; ret (r :: rs)
  end.

(** The caches a program can hold: built by the constructor, then used
    through the public methods only. *)
Inductive reachable (config : Config) : lruCache → Prop :=
| reachable_new : reachable config (NewCacheWithConfig config)
| reachable_exec c o now w r c' w' :
    reachable config c → exec o now c w = Some (r, c', w') →
    reachable config c'.

(** ** Vocabulary of the statements *)

(** The effect on the world of one report of the removal of [en]:
    one call of the callback, if there is one. *)
Definition notify (cb : option OnEvicted) (en : listEntry) (w : World) : World :=
  match cb with
  | Some f => f (key en) (value en) w
  | None => w
  end.

(** The cache after element [e], holding [en], left both structures. *)
Definition unlink (e : loc) (en : listEntry) (c : lruCache) : lruCache :=
  with_hash (delete (key en)) (with_lst (List_.Remove e) c).

(** The cache after [PutWithTimeout] on a key it has: element [e] is at
    the front and holds [en]. *)
Definition updated (e : loc) (en : listEntry) (c : lruCache) : lruCache :=
  with_elems (<[e := en]>) (with_lst (List_.MoveToFront e) c).

(** The cache after [PutWithTimeout] linked a new element for [k],
    before the capacity check. *)
Definition pushed (k : Key) (en : listEntry) (c : lruCache) : lruCache :=
  let e := fresh (dom (elems c)) in
  with_hash (<[k := e]>) (with_lst (cons e) (with_elems (<[e := en]>) c)).

(** The entry a key leads to, through [hash] and the element. *)
Definition entry_of (c : lruCache) (k : Key) : option listEntry :=
  match hash c !! k with
  | Some e => elems c !! e
  | None => None
  end.

(** The entries in recency order, most recent first. *)
Definition entries (c : lruCache) : list listEntry :=
  omap (λ e, elems c !! e) (lst c).

(** The effective time to live of [PutWithTimeout]. *)
Definition clamp (t : Duration) : Duration := Z.max t Second.

(** The deadline [Put] gives at [now] on a cache built from [config]. *)
Definition Put_deadline (config : Config) (now : Time) : Time :=
  Add now (clamp (cacheTime (NewCacheWithConfig config))).

(** Representation invariant: the list has no repeated element, every
    key of [hash] leads to a linked element holding that key, and every
    linked element is the one [hash] has for its key. *)
Record wf (c : lruCache) : Prop := Wf {
  wf_NoDup : NoDup (lst c);
  wf_hash : ∀ k e, hash c !! k = Some e →
              e ∈ lst c ∧ ∃ en, elems c !! e = Some en ∧ key en = k;
  wf_lst : ∀ e, e ∈ lst c →
              ∃ en, elems c !! e = Some en ∧ hash c !! key en = Some e;
}.

(** Capacity invariant. *)
Definition bounded (c : lruCache) : Prop :=
  (Z.of_nat (size (hash c)) ≤ Z.max (maxLen c) 0)%Z.

(** ** The cache described as a list of entries

    A second description of the public methods, on the recency-ordered
    list of entries alone: no pointers, no index.  The code is compared
    with it. *)

Definition afind (k : Key) (es : list listEntry) : option listEntry :=
  find (λ en, bool_decide (key en = k)) es.

Definition adrop (k : Key) (es : list listEntry) : list listEntry :=
  filter (λ en, key en ≠ k) es.

Definition aput (cb : option OnEvicted) (cap : Z)
    (k : Key) (v : Value) (t : Duration) (now : Time)
    (es : list listEntry) (w : World) : list listEntry * World :=
  let en := ListEntry k v (Add now (clamp t)) in
  match afind k es with
  | Some _ => (en :: adrop k es, w)
  | None =>
      if decide (Z.of_nat (S (length es)) > cap)%Z
      then (removelast (en :: es), notify cb (List.last es en) w)
      else (en :: es, w)
  end.

Definition aget (cb : option OnEvicted) (k : Key) (now : Time)
    (es : list listEntry) (w : World) : (Value * bool) * list listEntry * World :=
  match afind k es with
  | Some en =>
      if Before (deadTime en) now
      then ((zero, false), adrop k es, notify cb en w)
      else ((value en, true), en :: adrop k es, w)
  | None => ((zero, false), es, w)
  end.

Definition adel (cb : option OnEvicted) (k : Key)
    (es : list listEntry) (w : World) : Value * list listEntry * World :=
  match afind k es with
  | Some en => (value en, adrop k es, notify cb en w)
  | None => (zero, es, w)
  end.

Definition aexec (cb : option OnEvicted) (cap : Z) (ttl : Duration)
    (o : op) (now : Time) (es : list listEntry) (w : World)
  : result * list listEntry * World :=
  match o with
  | OpPut k v =>
      let '(es', w') := aput cb cap k v ttl now es w in (RUnit, es', w')
  | OpPutWithTimeout k v t =>
      let '(es', w') := aput cb cap k v t now es w in (RUnit, es', w')
  | OpGet k =>
      let '(r, es', w') := aget cb k now es w in (RGet r.1 r.2, es', w')
  | OpDel k =>
      let '(v, es', w') := adel cb k es w in (RDel v, es', w')
  | OpLen => (RLen (Z.of_nat (length es)), es, w)
  | OpClose => (RUnit, [], w)
  end.

Fixpoint arun (cb : option OnEvicted) (cap : Z) (ttl : Duration)
    (tr : list (op * Time)) (es : list listEntry) (w : World)
  : list result * list listEntry * World :=
  match tr with
  | [] => ([], es, w)
  | (o, now) :: tr' =>
      let '(r, es', w') := aexec cb cap ttl o now es w in
      let '(rs, es'', w'') := arun cb cap ttl tr' es' w' in
      (r :: rs, es'', w'')
  end.

(** The outcome [x] of a method on cache [c] agrees with the outcome [y]
    of its list description: no panic, the same result and world, the
    configuration kept, the invariant kept, and the entries of the new
    cache are the new list. *)
Definition agrees {A} (c : lruCache) (x : option (A * lruCache * World))
    (y : A * list listEntry * World) : Prop :=
  ∃ c', x = Some (y.1.1, c', y.2) ∧ wf c' ∧
        maxLen c' = maxLen c ∧ onEvicted c' = onEvicted c ∧
        cacheTime c' = cacheTime c ∧ entries c' = y.1.2.

(** A cache with every deadline erased, and an outcome seen through
    it: what remains when deadlines cannot be told apart. *)
Definition forget (c : lruCache) : lruCache :=
  with_elems (fmap (set_deadTime 0%Z)) c.

Definition blind {A} (x : option (A * lruCache * World))
  : option (A * lruCache * World) :=
  match x with
  | Some (a, c, w) => Some (a, forget c, w)
  | None => None
  end.

Definition is_Get (o : op) : bool :=
  match o with
  | OpGet _ => true
  | _ => false
  end.

(** What a caller observes of a run: the results and the world. *)
Definition observe {A} (x : option (A * lruCache * World)) : option (A * World) :=
  match x with
  | Some (a, _, w) => Some (a, w)
  | None => None
  end.

(** ** The cache that holds nothing, and [Wrap]

    The second implementation of the interface, type [empty]: every method
    has an empty body or returns a constant.  A value of the interface is
    one of the two implementations; the nil interface value is [None]. *)

Definition empty_Put (k : Key) (v : Value) : unit := tt.
Definition empty_PutWithTimeout (k : Key) (v : Value) (t : Duration) : unit := tt.
Definition empty_Get (k : Key) : Value * bool := (zero, false).
Definition empty_Del (k : Key) : Value := zero.
Definition empty_Len : Z := 0%Z.
Definition empty_Close : unit := tt.



(** One method call on [empty]. *)
Definition empty_exec (o : op) : result :=
  match o with
  | OpPut k v => let _ := empty_Put k v in RUnit
  | OpPutWithTimeout k v t => let _ := empty_PutWithTimeout k v t in RUnit
  | OpGet k => RGet (empty_Get k).1 (empty_Get k).2
  | OpDel k => RDel (empty_Del k)
  | OpLen => RLen empty_Len
  | OpClose => let _ := empty_Close in RUnit
  end.



(** ** More vocabulary *)

(** The time to live [Put] gives on a cache built from [config]. *)
Definition Put_ttl (config : Config) : Duration :=
  if decide (CacheTime config < Millisecond)%Z then Minute
  else Z.max (CacheTime config) Second.

(** The key a call names, if it names one. *)
Definition key_of (o : op) : option Key :=
  match o with
  | OpPut k _ | OpPutWithTimeout k _ _ | OpGet k | OpDel k => Some k
  | OpLen | OpClose => None
  end.

(** The entry a call makes at [now] on a cache whose default time to
    live is [ttl], if the call is an insert. *)
Definition inserted (ttl : Duration) (o : op) (now : Time) : option listEntry :=
  match o with
  | OpPut k v => Some (ListEntry k v (Add now (clamp ttl)))
  | OpPutWithTimeout k v t => Some (ListEntry k v (Add now (clamp t)))
  | _ => None
  end.

(** The entry [Put] makes for a key, value and clock reading on a cache
    whose default time to live is [ttl]. *)
Definition put_entry (ttl : Duration) (kvt : Key * Value * Time) : listEntry :=
  ListEntry kvt.1.1 kvt.1.2 (Add kvt.2 (clamp ttl)).

(** A sequence of [Put]s, one per key, value and clock reading. *)
Definition puts (kvs : list (Key * Value * Time)) : list (op * Time) :=
  (λ kvt, (OpPut kvt.1.1 kvt.1.2, kvt.2)) <$> kvs.

End cache.

(** ** An instance to run

    Integer keys and values, the nil value read as [0], and a callback
    that appends each of its calls to a log. *)

Definition calls : Type := list (Z * Z).

Definition logged : @OnEvicted Z Z calls := λ k v w, w ++ [(k, v)].

Definition demo_config (n : Z) : @Config Z Z calls :=
  MkConfig n (Some logged) 0%Z.

(** The cache after the calls [tr] on a new cache of capacity [n]. *)
Definition demo_after (n : Z) (tr : list (@op Z Z * Time)) : @lruCache Z _ _ Z calls :=
  match run 0%Z tr (NewCacheWithConfig (demo_config n)) [] with
  | Some (_, c, _) => c
  | None => NewCacheWithConfig (demo_config n)
  end.

(** A cache of capacity 2 holding key 1 with value 10, inserted at time 0
    with the default time to live (one minute); the same with the insert
    made five nanoseconds later; and a full cache of capacity 1. *)
Definition demo_one : @lruCache Z _ _ Z calls :=
  demo_after 2 [(OpPut 1%Z 10%Z, 0%Z)].

Definition demo_one_later : @lruCache Z _ _ Z calls :=
  demo_after 2 [(OpPut 1%Z 10%Z, 5%Z)].

Definition demo_full : @lruCache Z _ _ Z calls :=
  demo_after 1 [(OpPut 1%Z 10%Z, 0%Z)].

(** The entry of key 1 in [demo_one], and an instant past its deadline. *)
Definition demo_entry : @listEntry Z Z := ListEntry 1%Z 10%Z 60000000000%Z.

Definition demo_late : Time := 100000000000%Z.

(** A cache with the entries of [demo_one] and another history; the full
    cache after one more insert; a configuration without callback. *)
Definition demo_other : @lruCache Z _ _ Z calls :=
  demo_after 2 [(OpPut 2%Z 20%Z, 0%Z); (OpDel 2%Z, 0%Z); (OpPut 1%Z 10%Z, 0%Z)].

Definition demo_full_next : @lruCache Z _ _ Z calls :=
  demo_after 1 [(OpPut 1%Z 10%Z, 0%Z); (OpPut 2%Z 20%Z, 0%Z)].

Definition demo_quiet : @Config Z Z calls := MkConfig 2%Z None 0%Z.

(** * Properties *)

(** ** The linked list *)

Module List_facts.
Import List_.

Lemma elem_of_Remove e l x : x ∈ Remove e l ↔ x ∈ l ∧ x ≠ e.
Proof. unfold Remove. rewrite list_elem_of_filter. tauto. Qed.

Lemma NoDup_Remove e l : NoDup l → NoDup (Remove e l).
Proof. apply NoDup_filter. Qed.

Lemma Remove_notin e l : e ∉ l → Remove e l = l.
Proof.
  unfold Remove. induction l as [|x l IH]; intros Hn; [done|].
  apply not_elem_of_cons in Hn as [Hne Hn].
  rewrite filter_cons_True by done. by rewrite IH.
Qed.

Lemma Remove_head e l : e ∉ l → Remove e (e :: l) = l.
Proof.
  intros Hn. unfold Remove. rewrite filter_cons_False by (intros Hc; by apply Hc).
  by apply Remove_notin.
Qed.

Lemma length_Remove e l : NoDup l → e ∈ l → S (length (Remove e l)) = length l.
Proof.
  induction 1 as [|x l Hx Hl IH]; intros He; [by apply elem_of_nil in He|].
  destruct (decide (x = e)) as [->|Hne].
  - by rewrite Remove_head.
  - apply elem_of_cons in He as [->|He]; [done|].
    unfold Remove in *. rewrite filter_cons_True by done. simpl. by rewrite IH.
Qed.

(** On a list without repetition, moving an element of the list to the
    front is unlinking it and linking it first. *)
Lemma MoveToFront_in e l : NoDup l → e ∈ l → MoveToFront e l = e :: Remove e l.
Proof.
  intros Hl He. unfold MoveToFront.
  destruct (decide (e ∉ l)) as [|_]; [done|].
  destruct (decide (head l = Some e)) as [Hh|]; [|done].
  destruct l as [|x l]; [done|]. simpl in Hh. injection Hh as ->.
  apply NoDup_cons in Hl as [Hx _]. by rewrite Remove_head.
Qed.

Lemma MoveToFront_notin e l : e ∉ l → MoveToFront e l = l.
Proof. intros. unfold MoveToFront. by destruct (decide (e ∉ l)). Qed.

Lemma elem_of_MoveToFront e l x : x ∈ MoveToFront e l ↔ x ∈ l.
Proof.
  unfold MoveToFront. repeat case_decide; try done.
  rewrite elem_of_cons, elem_of_Remove.
  destruct (decide (x = e)) as [->|]; [|tauto].
  split; [intros _|auto]. by destruct (decide (e ∈ l)).
Qed.

Lemma NoDup_MoveToFront e l : NoDup l → NoDup (MoveToFront e l).
Proof.
  intros Hl. unfold MoveToFront. repeat case_decide; try done.
  apply NoDup_cons. split; [|by apply NoDup_Remove].
  rewrite elem_of_Remove. tauto.
Qed.

Lemma MoveToFront_Permutation e l : NoDup l → MoveToFront e l ≡ₚ l.
Proof.
  intros Hl. apply NoDup_Permutation; [by apply NoDup_MoveToFront|done|].
  intros x. apply elem_of_MoveToFront.
Qed.

(** The back of a list without repetition is unlinked by dropping the
    last position. *)
Lemma Remove_Back e l : NoDup l → Back l = Some e → Remove e l = removelast l.
Proof.
  unfold Back. intros Hl Hb.
  destruct (decide (l = [])) as [->|Hne]; [done|].
  destruct (exists_last Hne) as (l' & x & ->).
  rewrite last_snoc in Hb. injection Hb as ->.
  rewrite removelast_last.
  apply NoDup_app in Hl as (_ & Hd & _).
  unfold Remove. rewrite filter_app, filter_cons_False, filter_nil, app_nil_r
    by (intros Hc; by apply Hc).
  apply Remove_notin. intros Hin. apply (Hd _ Hin). by left.
Qed.

End List_facts.

Section facts.

Context {Key : Type} `{Countable Key}.
Context {Value : Type} (zero : Value).
Context {World : Type}.

Abbreviation cache := (@lruCache Key _ _ Value World).
Abbreviation entry := (@listEntry Key Value).
Abbreviation callback := (@OnEvicted Key Value World).

Implicit Types (c : cache) (en : entry) (w : World) (e : loc) (k : Key)
  (v : Value) (now : Time) (t : Duration).

(** ** What each method computes, case by case *)

Lemma clamp_eq t : (if decide (t < Second)%Z then Second else t) = clamp t.
Proof. unfold clamp. case_decide; lia. Qed.

Lemma removeElem_Some c w e en :
  elems c !! e = Some en →
  removeElem (Some e) c w = Some (tt, unlink e en c, notify (onEvicted c) en w).
Proof.
  intros He. unfold removeElem, bind, modify, deref, self. simpl.
  rewrite He. simpl. unfold notify, unlink.
  by destruct (onEvicted c).
Qed.

Lemma Get_absent c w k now :
  hash c !! k = None → Get zero k now c w = Some ((zero, false), c, w).
Proof. intros Hk. unfold Get, bind, self. by rewrite Hk. Qed.

Lemma Get_expired c w k now e en :
  hash c !! k = Some e → elems c !! e = Some en → (deadTime en < now)%Z →
  Get zero k now c w
  = Some ((zero, false), unlink e en c, notify (onEvicted c) en w).
Proof.
  intros Hk He Hd. unfold Get, bind at 1, self. rewrite Hk.
  unfold bind at 1, deref at 1. rewrite He.
  unfold Before. rewrite bool_decide_eq_true_2 by done.
  unfold bind. by rewrite (removeElem_Some _ _ _ en).
Qed.

Lemma Get_live c w k now e en :
  hash c !! k = Some e → elems c !! e = Some en → ¬ (deadTime en < now)%Z →
  Get zero k now c w
  = Some ((value en, true), with_lst (List_.MoveToFront e) c, w).
Proof.
  intros Hk He Hd. unfold Get, bind at 1, self. rewrite Hk.
  unfold bind at 1, deref at 1. rewrite He.
  unfold Before. rewrite bool_decide_eq_false_2 by done.
  unfold bind, modify, deref. simpl. by rewrite He.
Qed.

Lemma Del_absent c w k :
  hash c !! k = None → Del zero k c w = Some (zero, c, w).
Proof. intros Hk. unfold Del, bind, self. by rewrite Hk. Qed.

Lemma Del_present c w k e en :
  hash c !! k = Some e → elems c !! e = Some en →
  Del zero k c w = Some (value en, unlink e en c, notify (onEvicted c) en w).
Proof.
  intros Hk He. unfold Del, bind at 1, self. rewrite Hk.
  unfold bind at 1, deref at 1. rewrite He.
  unfold bind. by rewrite (removeElem_Some _ _ _ en).
Qed.

(** A key of [hash] that led to no element would make the method
    panic; [wf] excludes it. *)
Lemma Del_dangling c w k e :
  hash c !! k = Some e → elems c !! e = None → Del zero k c w = None.
Proof.
  intros Hk He. unfold Del, bind at 1, self. rewrite Hk.
  unfold bind, deref. by rewrite He.
Qed.

Lemma Len_eq c w : Len c w = Some (Z.of_nat (size (hash c)), c, w).
Proof. done. Qed.

Lemma Close_eq c w :
  Close c w = Some (tt, with_lst (λ _, []) (with_hash (λ _, ∅) c), w).
Proof. done. Qed.

Lemma PutWithTimeout_existing c w k v t now e en :
  hash c !! k = Some e → elems c !! e = Some en →
  PutWithTimeout k v t now c w
  = Some (tt, updated e (ListEntry (key en) v (Add now (clamp t))) c, w).
Proof.
  intros Hk He. unfold PutWithTimeout. rewrite clamp_eq.
  unfold bind at 1, self. rewrite Hk.
  unfold bind, assign, bind, modify, deref. simpl. rewrite He. simpl.
  rewrite lookup_insert_eq. unfold updated, with_elems, with_lst. simpl.
  by rewrite insert_insert_eq.
Qed.

Lemma PutWithTimeout_dangling c w k v t now e :
  hash c !! k = Some e → elems c !! e = None →
  PutWithTimeout k v t now c w = None.
Proof.
  intros Hk He. unfold PutWithTimeout. unfold bind at 1, self. rewrite Hk.
  unfold bind, assign, bind, modify, deref. simpl. by rewrite He.
Qed.

Lemma PutWithTimeout_new c w k v t now :
  hash c !! k = None →
  PutWithTimeout k v t now c w
  = lazyRemoveOldest (pushed k (ListEntry k v (Add now (clamp t))) c) w.
Proof.
  intros Hk. unfold PutWithTimeout. rewrite clamp_eq.
  unfold bind at 1, self. by rewrite Hk.
Qed.

Lemma lazyRemoveOldest_eq c w :
  lazyRemoveOldest c w
  = if decide (Z.of_nat (size (hash c)) > maxLen c)%Z
    then removeElem (List_.Back (lst c)) c w
    else Some (tt, c, w).
Proof. unfold lazyRemoveOldest, bind, self. by case_decide. Qed.

(** ** The representation invariant is kept by every state change *)

Lemma wf_NewCacheWithConfig (config : @Config Key Value World) :
  wf (NewCacheWithConfig config).
Proof.
  split; simpl.
  - apply NoDup_nil_2.
  - intros k e Hk. by rewrite lookup_empty in Hk.
  - intros e He. by apply elem_of_nil in He.
Qed.

Lemma wf_entry_of c k e :
  wf c → hash c !! k = Some e → ∃ en, elems c !! e = Some en ∧ key en = k.
Proof. intros Hwf Hk. by destruct (wf_hash c Hwf k e Hk). Qed.

Lemma wf_fresh c : wf c → fresh (dom (elems c)) ∉ lst c.
Proof.
  intros Hwf Hin. destruct (wf_lst c Hwf _ Hin) as (en & He & _).
  apply (is_fresh (dom (elems c))). apply elem_of_dom. by exists en.
Qed.

Lemma wf_unlink c e en :
  wf c → e ∈ lst c → elems c !! e = Some en → wf (unlink e en c).
Proof.
  intros Hwf Hin He.
  destruct (wf_lst c Hwf e Hin) as (en0 & He0 & Hh).
  assert (en0 = en) as -> by congruence.
  split; simpl.
  - apply List_facts.NoDup_Remove, Hwf.
  - intros k e' Hk. apply lookup_delete_Some in Hk as [Hne Hk].
    destruct (wf_hash c Hwf k e' Hk) as (Hin' & en' & He' & Hkey).
    split; [|by exists en'].
    apply List_facts.elem_of_Remove. split; [done|].
    intros ->. congruence.
  - intros e' Hin'. apply List_facts.elem_of_Remove in Hin' as [Hin' Hne].
    destruct (wf_lst c Hwf e' Hin') as (en' & He' & Hh').
    exists en'. split; [done|].
    rewrite lookup_delete_ne; [done|]. intros Heq.
    rewrite Heq in Hh. congruence.
Qed.

Lemma wf_MoveToFront c e : wf c → wf (with_lst (List_.MoveToFront e) c).
Proof.
  intros Hwf. split; simpl.
  - apply List_facts.NoDup_MoveToFront, Hwf.
  - intros k e' Hk. rewrite List_facts.elem_of_MoveToFront.
    by apply (wf_hash c Hwf).
  - intros e'. rewrite List_facts.elem_of_MoveToFront. by apply (wf_lst c Hwf).
Qed.

Lemma wf_updated c e en0 en :
  wf c → elems c !! e = Some en0 → key en = key en0 → wf (updated e en c).
Proof.
  intros Hwf He Hkey. apply (wf_MoveToFront c e) in Hwf as Hwf'.
  unfold updated. set (c1 := with_lst _ c) in *.
  assert (elems c1 = elems c) as Hel by done.
  split; simpl.
  - apply Hwf'.
  - intros k e' Hk.
    destruct (wf_hash c1 Hwf' k e' Hk) as (Hin & en' & He' & Hk').
    split; [done|]. destruct (decide (e = e')) as [<-|Hne].
    + exists en. rewrite lookup_insert_eq. split; [done|].
      rewrite Hel in He'. congruence.
    + exists en'. by rewrite lookup_insert_ne.
  - intros e' Hin. destruct (wf_lst c1 Hwf' e' Hin) as (en' & He' & Hh).
    destruct (decide (e = e')) as [<-|Hne].
    + exists en. rewrite lookup_insert_eq. split; [done|].
      rewrite Hel in He'. assert (en' = en0) as -> by congruence.
      by rewrite Hkey.
    + exists en'. by rewrite lookup_insert_ne.
Qed.

Lemma wf_pushed c k en :
  wf c → hash c !! k = None → key en = k → wf (pushed k en c).
Proof.
  intros Hwf Hk Hkey. pose proof (wf_fresh c Hwf) as Hfr.
  unfold pushed. set (e := fresh (dom (elems c))) in *.
  split; simpl.
  - apply NoDup_cons. split; [done|apply Hwf].
  - intros k' e' Hk'. apply lookup_insert_Some in Hk' as [[<- <-]|[Hne Hk']].
    + split; [by left|]. exists en. by rewrite lookup_insert_eq.
    + destruct (wf_hash c Hwf k' e' Hk') as (Hin & en' & He' & Hkey').
      split; [by right|]. exists en'. split; [|done].
      rewrite lookup_insert_ne; [done|]. by intros ->.
  - intros e' Hin. apply elem_of_cons in Hin as [->|Hin].
    + exists en. rewrite lookup_insert_eq. split; [done|].
      rewrite Hkey. by rewrite lookup_insert_eq.
    + destruct (wf_lst c Hwf e' Hin) as (en' & He' & Hh).
      exists en'. rewrite lookup_insert_ne by (by intros ->).
      split; [done|]. rewrite lookup_insert_ne; [done|].
      intros Heq. rewrite <- Heq in Hh. congruence.
Qed.

Lemma wf_Close c : wf (with_lst (λ _, []) (with_hash (λ _, ∅) c)).
Proof.
  split; simpl.
  - apply NoDup_nil_2.
  - intros k e Hk. by rewrite lookup_empty in Hk.
  - intros e He. by apply elem_of_nil in He.
Qed.

(** ** The entries behind the list *)

Lemma omap_agree {A B} (f g : A → option B) (l : list A) :
  (∀ x, x ∈ l → f x = g x) → omap f l = omap g l.
Proof.
  induction l as [|x l IH]; intros Hfg; [done|]. csimpl.
  rewrite (Hfg x) by (by left). rewrite IH; [done|].
  intros y Hy. apply Hfg. by right.
Qed.

Lemma omap_filter_key (f : loc → option entry) (e : loc) (k : Key) (l : list loc) :
  (∀ x a, x ∈ l → f x = Some a → (x ≠ e ↔ key a ≠ k)) →
  omap f (filter (λ x, x ≠ e) l) = filter (λ a, key a ≠ k) (omap f l).
Proof.
  induction l as [|x l IH]; intros Hl; [done|].
  assert (omap f (filter (λ x, x ≠ e) l) = filter (λ a, key a ≠ k) (omap f l))
    as IH' by (apply IH; intros y a Hy; apply Hl; by right).
  destruct (f x) as [a|] eqn:Hfx.
  - pose proof (Hl x a (list_elem_of_here _ _) Hfx) as Hiff.
    destruct (decide (x ≠ e)) as [Hne|Heq].
    + rewrite filter_cons_True by done. csimpl. rewrite Hfx. csimpl.
      rewrite filter_cons_True by (by apply Hiff). by rewrite IH'.
    + rewrite filter_cons_False by done. csimpl. rewrite Hfx. csimpl.
      rewrite filter_cons_False by (rewrite <- Hiff; done). done.
  - destruct (decide (x ≠ e)) as [Hne|Heq].
    + rewrite filter_cons_True by done. csimpl. by rewrite Hfx.
    + rewrite filter_cons_False by done. csimpl. by rewrite Hfx.
Qed.

Lemma elem_of_entries c en :
  en ∈ entries c ↔ ∃ e, e ∈ lst c ∧ elems c !! e = Some en.
Proof. unfold entries. apply list_elem_of_omap. Qed.

Lemma length_entries c : wf c → length (entries c) = length (lst c).
Proof.
  intros Hwf. unfold entries.
  assert (∀ e, e ∈ lst c → is_Some (elems c !! e)) as Hall.
  { intros e He. destruct (wf_lst c Hwf e He) as (en & -> & _). by exists en. }
  induction (lst c) as [|e l IH]; [done|]. csimpl.
  destruct (Hall e) as [en ->]; [by left|]. csimpl.
  rewrite IH; [done|]. intros e' He'. apply Hall. by right.
Qed.

Lemma NoDup_keys c : wf c → NoDup (key <$> entries c).
Proof.
  intros Hwf. unfold entries.
  assert (∀ x y a b, x ∈ lst c → y ∈ lst c → elems c !! x = Some a →
            elems c !! y = Some b → key a = key b → x = y) as Hinj.
  { intros x y a b Hx Hy Ha Hb Hab.
    destruct (wf_lst c Hwf x Hx) as (a' & Ha' & Hha).
    destruct (wf_lst c Hwf y Hy) as (b' & Hb' & Hhb).
    assert (a' = a) as -> by congruence. assert (b' = b) as -> by congruence.
    rewrite Hab in Hha. congruence. }
  pose proof (wf_NoDup c Hwf) as Hnd.
  induction Hnd as [|x l Hx Hl IH]; [apply NoDup_nil_2|]. csimpl.
  assert (NoDup (key <$> omap (λ e, elems c !! e) l)) as IH'.
  { apply IH. intros y z a b Hy Hz. apply Hinj; by right. }
  destruct (elems c !! x) as [a|] eqn:Ha; [|done]. csimpl.
  apply NoDup_cons. split; [|done].
  intros Hin. apply list_elem_of_fmap in Hin as (b & Hab & Hb).
  apply list_elem_of_omap in Hb as (y & Hy & Hyb).
  apply Hx. assert (x = y) as ->; [|done].
  apply (Hinj x y a b); [by left|by right|done..].
Qed.

Lemma dom_hash c : wf c → dom (hash c) = list_to_set (key <$> entries c).
Proof.
  intros Hwf. apply set_eq. intros k.
  rewrite elem_of_dom, elem_of_list_to_set, list_elem_of_fmap. split.
  - intros [e Hk]. destruct (wf_hash c Hwf k e Hk) as (Hin & en & He & Hkey).
    exists en. split; [done|]. apply elem_of_entries. by exists e.
  - intros (en & -> & Hen). apply elem_of_entries in Hen as (e & Hin & He).
    destruct (wf_lst c Hwf e Hin) as (en' & He' & Hh).
    exists e. congruence.
Qed.

(** The bijection in numbers: as many keys as linked elements. *)
Lemma size_hash c : wf c → size (hash c) = length (lst c).
Proof.
  intros Hwf. rewrite <- size_dom, (dom_hash c Hwf).
  rewrite size_list_to_set by (by apply NoDup_keys).
  rewrite length_fmap. by apply length_entries.
Qed.

Lemma afind_Some (es : list entry) en :
  NoDup (key <$> es) → en ∈ es → afind (key en) es = Some en.
Proof.
  unfold afind. induction es as [|a es IH]; intros Hnd Hin.
  - by apply elem_of_nil in Hin.
  - simpl in *. apply NoDup_cons in Hnd as [Ha Hnd].
    apply elem_of_cons in Hin as [->|Hin].
    + by rewrite bool_decide_eq_true_2.
    + rewrite bool_decide_eq_false_2; [by apply IH|].
      intros Heq. apply Ha. rewrite Heq. apply list_elem_of_fmap. by exists en.
Qed.

Lemma afind_None (es : list entry) k :
  (∀ en, en ∈ es → key en ≠ k) → afind k es = None.
Proof.
  unfold afind. induction es as [|a es IH]; intros Hall; [done|]. simpl.
  rewrite bool_decide_eq_false_2 by (apply Hall; by left).
  apply IH. intros en Hen. apply Hall. by right.
Qed.

(** Looking a key up in the list of entries is following [hash]. *)
Lemma afind_entries c k : wf c → afind k (entries c) = entry_of c k.
Proof.
  intros Hwf. unfold entry_of. destruct (hash c !! k) as [e|] eqn:Hk.
  - destruct (wf_hash c Hwf k e Hk) as (Hin & en & He & <-). rewrite He.
    apply afind_Some; [by apply NoDup_keys|].
    apply elem_of_entries. by exists e.
  - apply afind_None. intros en Hen Hkey.
    apply elem_of_entries in Hen as (e & Hin & He).
    destruct (wf_lst c Hwf e Hin) as (en' & He' & Hh). congruence.
Qed.

Lemma keys_apart c x y a b :
  wf c → x ∈ lst c → y ∈ lst c → elems c !! x = Some a → elems c !! y = Some b →
  (x ≠ y ↔ key a ≠ key b).
Proof.
  intros Hwf Hx Hy Ha Hb.
  destruct (wf_lst c Hwf x Hx) as (a' & Ha' & Hha).
  destruct (wf_lst c Hwf y Hy) as (b' & Hb' & Hhb).
  assert (a' = a) as -> by congruence. assert (b' = b) as -> by congruence.
  split.
  - intros Hne Hk. rewrite Hk in Hha. congruence.
  - intros Hne ->. congruence.
Qed.

Lemma entries_Remove c e en :
  wf c → e ∈ lst c → elems c !! e = Some en →
  omap (λ x, elems c !! x) (List_.Remove e (lst c)) = adrop (key en) (entries c).
Proof.
  intros Hwf Hin He. unfold List_.Remove, adrop, entries.
  apply omap_filter_key. intros x a Hx Ha. by apply (keys_apart c).
Qed.

Lemma entries_unlink c e en :
  wf c → e ∈ lst c → elems c !! e = Some en →
  entries (unlink e en c) = adrop (key en) (entries c).
Proof. apply entries_Remove. Qed.

Lemma entries_MoveToFront c e en :
  wf c → e ∈ lst c → elems c !! e = Some en →
  entries (with_lst (List_.MoveToFront e) c) = en :: adrop (key en) (entries c).
Proof.
  intros Hwf Hin He. unfold entries at 1. simpl.
  rewrite List_facts.MoveToFront_in by (done || apply Hwf). csimpl.
  rewrite He. csimpl. by rewrite (entries_Remove c e en).
Qed.

Lemma entries_updated c e en en' :
  wf c → e ∈ lst c → elems c !! e = Some en →
  entries (updated e en' c) = en' :: adrop (key en) (entries c).
Proof.
  intros Hwf Hin He. unfold entries at 1. simpl.
  rewrite List_facts.MoveToFront_in by (done || apply Hwf). csimpl.
  rewrite lookup_insert_eq. csimpl. f_equal.
  rewrite <- (entries_Remove c e en) by done.
  apply omap_agree. intros x Hx. apply List_facts.elem_of_Remove in Hx as [_ Hne].
  by rewrite lookup_insert_ne.
Qed.

Lemma entries_pushed c k en : wf c → entries (pushed k en c) = en :: entries c.
Proof.
  intros Hwf. pose proof (wf_fresh c Hwf) as Hfr.
  unfold entries, pushed. simpl. csimpl. rewrite lookup_insert_eq. csimpl.
  f_equal. apply omap_agree. intros x Hx.
  rewrite lookup_insert_ne; [done|]. intros Heq. by rewrite <- Heq in Hx.
Qed.

Lemma last_cons_default {A} (a d : A) (l : list A) :
  List.last (a :: l) d = List.last l a.
Proof.
  revert a d. induction l as [|b l IH]; intros a d; [done|].
  change (List.last (a :: b :: l) d) with (List.last (b :: l) d).
  by rewrite (IH b d), (IH b a).
Qed.

(** The back element holds the last entry; unlinking it drops the last
    entry. *)
Lemma entries_Back c e en d :
  wf c → List_.Back (lst c) = Some e → elems c !! e = Some en →
  List.last (entries c) d = en ∧ entries (unlink e en c) = removelast (entries c).
Proof.
  intros Hwf Hb He. pose proof (wf_NoDup c Hwf) as Hnd.
  unfold entries, unlink. simpl.
  rewrite (List_facts.Remove_Back e) by done.
  unfold List_.Back in Hb.
  destruct (decide (lst c = [])) as [Hnil|Hne]; [by rewrite Hnil in Hb|].
  destruct (exists_last Hne) as (l' & x & Hl). rewrite Hl in *.
  rewrite last_snoc in Hb. injection Hb as ->.
  rewrite removelast_last, omap_app. csimpl. rewrite He. csimpl.
  by rewrite last_last, removelast_last.
Qed.

(** ** The code agrees with its list description *)

Lemma agrees_intro {A} c c' (a : A) (es : list entry) w :
  wf c' → maxLen c' = maxLen c → onEvicted c' = onEvicted c →
  cacheTime c' = cacheTime c → entries c' = es →
  agrees c (Some (a, c', w)) (a, es, w).
Proof. intros. by exists c'. Qed.

Lemma Get_agrees c w k now :
  wf c → agrees c (Get zero k now c w) (aget zero (onEvicted c) k now (entries c) w).
Proof.
  intros Hwf. unfold aget. rewrite (afind_entries c k Hwf). unfold entry_of.
  destruct (hash c !! k) as [e|] eqn:Hk.
  - destruct (wf_hash c Hwf k e Hk) as (Hin & en & He & Hkey). rewrite He.
    unfold Before. case_bool_decide as Hd.
    + rewrite (Get_expired c w k now e en) by done.
      apply agrees_intro; try done.
      * by apply wf_unlink.
      * rewrite <- Hkey. by apply entries_unlink.
    + rewrite (Get_live c w k now e en) by done.
      apply agrees_intro; try done.
      * by apply wf_MoveToFront.
      * rewrite <- Hkey. by apply entries_MoveToFront.
  - rewrite Get_absent by done. by apply agrees_intro.
Qed.

Lemma Del_agrees c w k :
  wf c → agrees c (Del zero k c w) (adel zero (onEvicted c) k (entries c) w).
Proof.
  intros Hwf. unfold adel. rewrite (afind_entries c k Hwf). unfold entry_of.
  destruct (hash c !! k) as [e|] eqn:Hk.
  - destruct (wf_hash c Hwf k e Hk) as (Hin & en & He & Hkey). rewrite He.
    rewrite (Del_present c w k e en) by done.
    apply agrees_intro; try done.
    + by apply wf_unlink.
    + rewrite <- Hkey. by apply entries_unlink.
  - rewrite Del_absent by done. by apply agrees_intro.
Qed.

Lemma PutWithTimeout_agrees c w k v t now :
  wf c →
  agrees c (PutWithTimeout k v t now c w)
    (tt, (aput (onEvicted c) (maxLen c) k v t now (entries c) w).1,
         (aput (onEvicted c) (maxLen c) k v t now (entries c) w).2).
Proof.
  intros Hwf. unfold aput. rewrite (afind_entries c k Hwf). unfold entry_of.
  destruct (hash c !! k) as [e|] eqn:Hk.
  - destruct (wf_hash c Hwf k e Hk) as (Hin & en & He & Hkey). rewrite He.
    rewrite (PutWithTimeout_existing c w k v t now e en) by done.
    rewrite Hkey. simpl. apply agrees_intro; try done.
    + by apply (wf_updated c e en).
    + rewrite <- Hkey. by apply entries_updated.
  - rewrite PutWithTimeout_new, lazyRemoveOldest_eq by done.
    set (en := ListEntry k v (Add now (clamp t))).
    assert (wf (pushed k en c)) as Hwf1 by (by apply wf_pushed).
    pose proof (entries_pushed c k en Hwf) as Hes.
    rewrite (size_hash _ Hwf1).
    replace (length (lst (pushed k en c))) with (S (length (entries c)))
      by (rewrite (length_entries c Hwf); done).
    change (maxLen (pushed k en c)) with (maxLen c).
    destruct (decide (Z.of_nat (S (length (entries c))) > maxLen c)%Z)
      as [Hcap|Hcap]; cbn [fst snd].
    + destruct (List_.Back (lst (pushed k en c))) as [eb|] eqn:Hb.
      2:{ unfold List_.Back in Hb. by apply last_None in Hb. }
      assert (eb ∈ lst (pushed k en c)) as Hin.
      { unfold List_.Back in Hb. apply last_Some in Hb as [l' ->].
        apply elem_of_app. right. by left. }
      destruct (wf_lst _ Hwf1 eb Hin) as (enb & Heb & _).
      rewrite (removeElem_Some _ _ _ enb) by done.
      destruct (entries_Back _ eb enb en Hwf1 Hb Heb) as [Hlast Hrm].
      rewrite Hes, last_cons_default in Hlast. rewrite Hes in Hrm.
      rewrite Hlast. apply agrees_intro; try done.
      by apply wf_unlink.
    + by apply agrees_intro.
Qed.

Lemma Put_agrees c w k v now :
  wf c →
  agrees c (Put k v now c w)
    (tt, (aput (onEvicted c) (maxLen c) k v (cacheTime c) now (entries c) w).1,
         (aput (onEvicted c) (maxLen c) k v (cacheTime c) now (entries c) w).2).
Proof. apply PutWithTimeout_agrees. Qed.

Lemma Len_agrees c w :
  wf c → agrees c (Len c w) (Z.of_nat (length (entries c)), entries c, w).
Proof.
  intros Hwf. rewrite Len_eq, (size_hash c Hwf), <- (length_entries c Hwf).
  by apply agrees_intro.
Qed.

Lemma Close_agrees c w : agrees c (Close c w) (tt, [], w).
Proof.
  rewrite Close_eq. apply agrees_intro; try done. apply wf_Close.
Qed.

Lemma exec_agrees c w o now :
  wf c →
  agrees c (exec zero o now c w)
    (aexec zero (onEvicted c) (maxLen c) (cacheTime c) o now (entries c) w).
Proof.
  intros Hwf. destruct o as [k v|k v t|k|k| |]; simpl.
  - destruct (Put_agrees c w k v now Hwf) as (c' & Hx & Hc').
    destruct (aput _ _ _ _ _ _ _ _) as [es' w'] eqn:Hy. simpl in *.
    exists c'. unfold bind. by rewrite Hx.
  - destruct (PutWithTimeout_agrees c w k v t now Hwf) as (c' & Hx & Hc').
    destruct (aput _ _ _ _ _ _ _ _) as [es' w'] eqn:Hy. simpl in *.
    exists c'. unfold bind. by rewrite Hx.
  - destruct (Get_agrees c w k now Hwf) as (c' & Hx & Hc').
    destruct (aget _ _ _ _ _ _) as [[r es'] w'] eqn:Hy. simpl in *.
    exists c'. unfold bind. by rewrite Hx.
  - destruct (Del_agrees c w k Hwf) as (c' & Hx & Hc').
    destruct (adel _ _ _ _ _) as [[r es'] w'] eqn:Hy. simpl in *.
    exists c'. unfold bind. by rewrite Hx.
  - destruct (Len_agrees c w Hwf) as (c' & Hx & Hc'). simpl in *.
    exists c'. unfold bind. by rewrite Hx.
  - destruct (Close_agrees c w) as (c' & Hx & Hc'). simpl in *.
    exists c'. unfold bind. by rewrite Hx.
Qed.

Lemma run_agrees tr c w :
  wf c →
  agrees c (run zero tr c w)
    (arun zero (onEvicted c) (maxLen c) (cacheTime c) tr (entries c) w).
Proof.
  revert c w. induction tr as [|[o now] tr IH]; intros c w Hwf.
  - by apply agrees_intro.
  - simpl. destruct (exec_agrees c w o now Hwf) as (c1 & Hx & Hwf1 & Hm & Hcb & Ht & Hes).
    destruct (aexec _ _ _ _ _ _ _ _) as [[r es1] w1] eqn:Hy. simpl in *.
    destruct (IH c1 w1 Hwf1) as (c2 & Hx2 & Hwf2 & Hm2 & Hcb2 & Ht2 & Hes2).
    rewrite Hm, Hcb, Ht, Hes in *.
    destruct (arun _ _ _ _ _ _ _) as [[rs es2] w2] eqn:Hy2. simpl in *.
    unfold bind. rewrite Hx, Hx2. simpl. apply agrees_intro; congruence.
Qed.

(** ** Invariants of reachable caches *)

Lemma length_adrop_found (es : list entry) k en :
  afind k es = Some en → S (length (adrop k es)) ≤ length es.
Proof.
  unfold afind, adrop. induction es as [|a es IH]; intros Hf; [done|].
  simpl in Hf. case_bool_decide as Hk.
  - rewrite filter_cons_False by (intros Hc; by apply Hc). simpl.
    pose proof (length_filter (λ en0 : entry, key en0 ≠ k) es). lia.
  - rewrite filter_cons_True by done. simpl. apply IH in Hf. lia.
Qed.

Lemma length_adrop (es : list entry) k : length (adrop k es) ≤ length es.
Proof. apply length_filter. Qed.

Lemma length_removelast_cons {A} (a : A) (l : list A) :
  length (removelast (a :: l)) = length l.
Proof.
  revert a. induction l as [|b l IH]; intros a; [done|].
  change (removelast (a :: b :: l)) with (a :: removelast (b :: l)).
  cbn [length]. by rewrite IH.
Qed.

Lemma length_aput (cb : option callback) cap k v t now (es : list entry) w :
  (Z.of_nat (length es) ≤ Z.max cap 0)%Z →
  (Z.of_nat (length (aput cb cap k v t now es w).1) ≤ Z.max cap 0)%Z.
Proof.
  intros Hb. unfold aput. destruct (afind k es) as [en|] eqn:Hf.
  - apply length_adrop_found in Hf. simpl. lia.
  - case_decide; cbn [fst].
    + rewrite length_removelast_cons. lia.
    + simpl. lia.
Qed.

Lemma length_aexec (cb : option callback) cap ttl o now (es : list entry) w :
  (Z.of_nat (length es) ≤ Z.max cap 0)%Z →
  (Z.of_nat (length (aexec zero cb cap ttl o now es w).1.2) ≤ Z.max cap 0)%Z.
Proof.
  intros Hb. destruct o as [k v|k v t|k|k| |]; simpl.
  - pose proof (length_aput cb cap k v ttl now es w Hb).
    by destruct (aput _ _ _ _ _ _ _ _).
  - pose proof (length_aput cb cap k v t now es w Hb).
    by destruct (aput _ _ _ _ _ _ _ _).
  - unfold aget. destruct (afind k es) as [en|] eqn:Hf; [|done].
    destruct (Before _ _); simpl.
    + pose proof (length_adrop es k). lia.
    + apply length_adrop_found in Hf. lia.
  - unfold adel. destruct (afind k es) as [en|] eqn:Hf; [|done]. simpl.
    pose proof (length_adrop es k). lia.
  - done.
  - simpl. lia.
Qed.

Lemma reachable_inv (config : @Config Key Value World) c :
  reachable zero config c →
  wf c ∧ maxLen c = MaxLen config ∧ onEvicted c = Callback config ∧
  cacheTime c = cacheTime (NewCacheWithConfig config) ∧ bounded c.
Proof.
  induction 1 as [|c o now w r c' w' Hr IH Hex].
  - split; [apply wf_NewCacheWithConfig|]. repeat split.
    unfold bounded. simpl. rewrite map_size_empty. lia.
  - destruct IH as (Hwf & Hm & Hcb & Ht & Hb).
    destruct (exec_agrees c w o now Hwf) as (c1 & Hx & Hwf1 & Hm1 & Hcb1 & Ht1 & Hes).
    rewrite Hex in Hx. injection Hx as _ -> _.
    split; [done|]. repeat split; try congruence.
    unfold bounded in *. rewrite (size_hash _ Hwf1), <- (length_entries _ Hwf1).
    rewrite Hes, Hm1. apply length_aexec.
    by rewrite (length_entries _ Hwf), <- (size_hash _ Hwf).
Qed.

Lemma reachable_wf (config : @Config Key Value World) c :
  reachable zero config c → wf c.
Proof. intros Hr. by destruct (reachable_inv config c Hr). Qed.

Lemma run_reachable (config : @Config Key Value World) tr c w rs c' w' :
  reachable zero config c → run zero tr c w = Some (rs, c', w') →
  reachable zero config c'.
Proof.
  revert c w rs. induction tr as [|[o now] tr IH]; intros c w rs Hr Hrun.
  - simpl in Hrun. unfold ret in Hrun. by injection Hrun as _ <- _.
  - simpl in Hrun. unfold bind in Hrun.
    destruct (exec zero o now c w) as [[[r c1] w1]|] eqn:Hex; [|done].
    destruct (run zero tr c1 w1) as [[[rs1 c2] w2]|] eqn:Hrun1; [|done].
    unfold ret in Hrun. injection Hrun as _ <- <-.
    eapply IH; [|exact Hrun1]. by eapply reachable_exec.
Qed.

(** No sequence of public calls panics. *)
Lemma run_total (config : @Config Key Value World) tr c w :
  reachable zero config c →
  ∃ rs c' w', run zero tr c w = Some (rs, c', w') ∧ reachable zero config c'.
Proof.
  intros Hr. destruct (run_agrees tr c w (reachable_wf _ _ Hr)) as (c' & Hx & _).
  eexists _, c', _. split; [done|]. by eapply run_reachable.
Qed.

(** ** Insert, then read *)

Lemma Put_eq c w k v now :
  Put k v now c w = PutWithTimeout k v (cacheTime c) now c w.
Proof. done. Qed.

Lemma afind_aput (cb : option callback) cap k v t now (es : list entry) w :
  (1 ≤ cap)%Z →
  afind k (aput cb cap k v t now es w).1 = Some (ListEntry k v (Add now (clamp t))).
Proof.
  intros Hcap. unfold aput. destruct (afind k es) as [en|] eqn:Hf.
  - unfold afind. simpl. by rewrite bool_decide_eq_true_2.
  - case_decide as Hfull; cbn [fst].
    + destruct es as [|a es]; [simpl in Hfull; lia|].
      change (removelast (?x :: a :: es)) with (x :: removelast (a :: es)).
      unfold afind. simpl. by rewrite bool_decide_eq_true_2.
    + unfold afind. simpl. by rewrite bool_decide_eq_true_2.
Qed.

Lemma afind_aput_inv (cb : option callback) cap k v t now (es : list entry) w en :
  afind k (aput cb cap k v t now es w).1 = Some en →
  en = ListEntry k v (Add now (clamp t)).
Proof.
  unfold aput. destruct (afind k es) as [en0|] eqn:Hf.
  - unfold afind. simpl. rewrite bool_decide_eq_true_2 by done. congruence.
  - case_decide as Hfull; cbn [fst].
    + destruct es as [|a es]; [done|].
      change (removelast (?x :: a :: es)) with (x :: removelast (a :: es)).
      unfold afind. simpl. rewrite bool_decide_eq_true_2 by done. congruence.
    + unfold afind. simpl. rewrite bool_decide_eq_true_2 by done. congruence.
Qed.

(** After an insert at [now], a read at [now'] finds the value exactly
    as long as [now'] is not past [now] plus the effective time to live. *)
Lemma PutWithTimeout_then_Get c w k v t now :
  wf c →
  ∃ c1 w1,
    PutWithTimeout k v t now c w = Some (tt, c1, w1) ∧ wf c1 ∧
    (∀ en, entry_of c1 k = Some en → en = ListEntry k v (Add now (clamp t))) ∧
    ((1 ≤ maxLen c)%Z →
     entry_of c1 k = Some (ListEntry k v (Add now (clamp t))) ∧
     ∀ now', ∃ c2 w2,
       Get zero k now' c1 w1
       = Some (if bool_decide (Add now (clamp t) < now')%Z
               then (zero, false) else (v, true), c2, w2)).
Proof.
  intros Hwf.
  destruct (PutWithTimeout_agrees c w k v t now Hwf)
    as (c1 & Hx & Hwf1 & Hm1 & Hcb1 & Ht1 & Hes1).
  simpl in Hx, Hes1. eexists c1, _. split; [exact Hx|]. split; [done|].
  rewrite <- (afind_entries c1 k Hwf1), Hes1. split.
  - intros en. apply afind_aput_inv.
  - intros Hcap. split; [by apply afind_aput|]. intros now'.
    destruct (Get_agrees c1 (aput (onEvicted c) (maxLen c) k v t now (entries c) w).2
                k now' Hwf1) as (c2 & Hx2 & _).
    rewrite Hx2. unfold aget.
    rewrite Hes1, afind_aput by done. unfold Before. simpl.
    case_bool_decide; simpl; by eexists _, _.
Qed.

(** ** The claims about reachable caches *)

(** C1 (as amended).  On every reachable cache whose capacity [maxLen]
    is at least 1, for every key and value, [Put] (and likewise
    [PutWithTimeout] with any ttl) immediately followed by [Get] of the
    same key at the same instant returns the value just stored and
    found = true.  (With [maxLen ≤ 0] the new entry is evicted by its own
    insert.) *)
Theorem C1_put_then_get (config : @Config Key Value World) c :
  reachable zero config c → (1 ≤ MaxLen config)%Z →
  ∀ k v t now w,
    (∃ c' w', bind (Put k v now) (λ _, Get zero k now) c w
              = Some ((v, true), c', w')) ∧
    (∃ c' w', bind (PutWithTimeout k v t now) (λ _, Get zero k now) c w
              = Some ((v, true), c', w')).
Proof.
  intros Hr Hcap k v t now w.
  destruct (reachable_inv config c Hr) as (Hwf & Hm & _).
  rewrite <- Hm in Hcap.
  assert (∀ t', ∃ c' w',
    bind (PutWithTimeout k v t' now) (λ _, Get zero k now) c w
    = Some ((v, true), c', w')) as Hgen.
  { intros t'.
    destruct (PutWithTimeout_then_Get c w k v t' now Hwf)
      as (c1 & w1 & Hx & _ & _ & Hget).
    destruct (Hget Hcap) as [_ Hget']. destruct (Hget' now) as (c' & w' & Hx').
    rewrite bool_decide_eq_false_2 in Hx'
      by (unfold Add, clamp, Second, Millisecond; lia).
    exists c', w'. unfold bind. by rewrite Hx. }
  split; [|apply Hgen].
  destruct (Hgen (cacheTime c)) as (c' & w' & Hx). exists c', w'.
  unfold bind in *. by rewrite Put_eq.
Qed.

(** C2.  Any sequence of public calls ([Put], [PutWithTimeout], [Get],
    [Del], [Len], [Close]) on a new cache runs to its end, and in the cache
    it leaves the key index [hash] has exactly as many entries as the list
    [lst] has elements, no element is linked twice, and a key maps to an
    element exactly when that element is linked and holds the key. *)
Theorem C2_index_list_bijection (config : @Config Key Value World) tr w :
  ∃ rs c w',
    run zero tr (NewCacheWithConfig config) w = Some (rs, c, w') ∧
    size (hash c) = length (lst c) ∧
    NoDup (lst c) ∧
    ∀ k e, hash c !! k = Some e ↔
           e ∈ lst c ∧ ∃ en, elems c !! e = Some en ∧ key en = k.
Proof.
  destruct (run_total config tr _ w (reachable_new zero config))
    as (rs & c & w' & Hrun & Hr).
  pose proof (reachable_wf config c Hr) as Hwf.
  exists rs, c, w'. split; [done|]. split; [by apply size_hash|].
  split; [apply Hwf|]. intros k e. split.
  - apply (wf_hash c Hwf).
  - intros (Hin & en & He & Hk).
    destruct (wf_lst c Hwf e Hin) as (en' & He' & Hh). congruence.
Qed.

(** C9.  On every reachable cache, [Close] empties the key index and the
    list, so that [Len] then returns 0; it leaves the world as it was, that
    is, it calls the callback not once, whatever the cache held; and the
    cache stays usable: every sequence of calls made after [Close] gives the
    results and callback calls it would give on a cache newly built from
    the same configuration. *)
Theorem C9_close_resets (config : @Config Key Value World) c :
  reachable zero config c →
  ∀ w, ∃ c',
    Close c w = Some (tt, c', w) ∧
    hash c' = ∅ ∧ lst c' = [] ∧
    Len c' w = Some (0%Z, c', w) ∧
    ∀ tr w0,
      observe (run zero tr c' w0)
      = observe (run zero tr (NewCacheWithConfig config) w0).
Proof.
  intros Hr w. destruct (reachable_inv config c Hr) as (Hwf & Hm & Hcb & Ht & _).
  rewrite Close_eq. eexists. split; [done|]. simpl.
  split; [done|]. split; [done|]. split; [done|].
  intros tr w0. set (c' := with_lst _ _).
  destruct (run_agrees tr c' w0 (wf_Close c)) as (c1 & Hx1 & _).
  destruct (run_agrees tr (NewCacheWithConfig config) w0
              (wf_NewCacheWithConfig config)) as (c2 & Hx2 & _).
  rewrite Hx1, Hx2. simpl.
  change (entries c') with (@nil entry).
  change (onEvicted c') with (onEvicted c).
  change (maxLen c') with (maxLen c).
  change (cacheTime c') with (cacheTime c).
  by rewrite Hm, Hcb, Ht.
Qed.

(** ** Only [Get] looks at deadlines *)

Lemma set_deadTime_idemp (d : Time) en :
  set_deadTime d (set_deadTime d en) = set_deadTime d en.
Proof. done. Qed.

Lemma forget_idemp c : forget (forget c) = forget c.
Proof.
  unfold forget, with_elems. simpl. f_equal.
  rewrite <- map_fmap_compose. apply map_fmap_ext. by intros e [? ? ?] _.
Qed.

Lemma lookup_forget c e :
  elems (forget c) !! e = set_deadTime 0%Z <$> elems c !! e.
Proof. unfold forget. simpl. apply lookup_fmap. Qed.

Lemma forget_insert c e en :
  forget (with_elems (<[e := en]>) c)
  = with_elems (<[e := set_deadTime 0%Z en]>) (forget c).
Proof. unfold forget, with_elems. simpl. f_equal. apply fmap_insert. Qed.

Lemma dom_forget c : dom (elems (forget c)) = dom (elems c).
Proof. unfold forget. simpl. apply dom_fmap_L. Qed.

Lemma blind_ret {A} (a : A) c w :
  blind (Some (a, c, w)) = blind (Some (a, forget c, w)).
Proof. simpl. by rewrite forget_idemp. Qed.

Lemma removeElem_blind oe c w :
  blind (removeElem oe c w) = blind (removeElem oe (forget c) w).
Proof.
  destruct oe as [e|]; [|apply blind_ret].
  unfold removeElem, bind, modify, deref, self. simpl.
  rewrite lookup_fmap. destruct (elems c !! e) as [en|]; [|done]. simpl.
  destruct (onEvicted c) as [f|]; simpl; f_equal; f_equal; f_equal;
    unfold forget, with_elems, with_hash, with_lst; simpl; f_equal;
    rewrite <- map_fmap_compose; apply map_fmap_ext; by intros ? [? ? ?] _.
Qed.

Lemma lazyRemoveOldest_blind c w :
  blind (lazyRemoveOldest c w) = blind (lazyRemoveOldest (forget c) w).
Proof.
  rewrite !lazyRemoveOldest_eq.
  change (hash (forget c)) with (hash c). change (maxLen (forget c)) with (maxLen c).
  change (lst (forget c)) with (lst c).
  case_decide; [apply removeElem_blind|apply blind_ret].
Qed.

Lemma forget_updated c e en :
  forget (updated e en c) = forget (updated e (set_deadTime 0%Z en) (forget c)).
Proof.
  unfold updated. rewrite !forget_insert. rewrite set_deadTime_idemp.
  f_equal. unfold forget, with_elems, with_lst. simpl. f_equal.
  rewrite <- map_fmap_compose. apply map_fmap_ext. by intros ? [? ? ?] _.
Qed.

Lemma forget_pushed c k en :
  forget (pushed k en c) = forget (pushed k (set_deadTime 0%Z en) (forget c)).
Proof.
  unfold pushed. rewrite dom_forget.
  unfold forget, with_elems, with_hash, with_lst. simpl. f_equal.
  rewrite !fmap_insert. f_equal.
  rewrite <- map_fmap_compose. apply map_fmap_ext. by intros ? [? ? ?] _.
Qed.

Lemma PutWithTimeout_blind c w k v t now1 now2 :
  blind (PutWithTimeout k v t now1 c w)
  = blind (PutWithTimeout k v t now2 (forget c) w).
Proof.
  destruct (hash c !! k) as [e|] eqn:Hk.
  - destruct (elems c !! e) as [en|] eqn:He.
    + rewrite (PutWithTimeout_existing c w k v t now1 e en) by done.
      rewrite (PutWithTimeout_existing (forget c) w k v t now2 e (set_deadTime 0%Z en))
        by (exact Hk || by rewrite lookup_forget, He).
      simpl. f_equal. f_equal. f_equal.
      etrans; [apply forget_updated|]. symmetry.
      etrans; [apply forget_updated|]. by rewrite forget_idemp.
    + rewrite (PutWithTimeout_dangling c w k v t now1 e) by done.
      by rewrite (PutWithTimeout_dangling (forget c) w k v t now2 e)
        by (exact Hk || by rewrite lookup_forget, He).
  - rewrite !PutWithTimeout_new by done.
    etrans; [apply lazyRemoveOldest_blind|]. symmetry.
    etrans; [apply lazyRemoveOldest_blind|].
    rewrite forget_pushed, forget_idemp. symmetry. by rewrite forget_pushed.
Qed.

Lemma Del_blind c w k : blind (Del zero k c w) = blind (Del zero k (forget c) w).
Proof.
  destruct (hash c !! k) as [e|] eqn:Hk.
  - destruct (elems c !! e) as [en|] eqn:He.
    + rewrite (Del_present c w k e en) by done.
      rewrite (Del_present (forget c) w k e (set_deadTime 0%Z en))
        by (exact Hk || by rewrite lookup_forget, He).
      simpl. f_equal. f_equal. f_equal.
      unfold forget, unlink, with_elems, with_hash, with_lst. simpl. f_equal.
      rewrite <- map_fmap_compose. apply map_fmap_ext. by intros ? [? ? ?] _.
    + rewrite (Del_dangling c w k e) by done.
      by rewrite (Del_dangling (forget c) w k e)
        by (exact Hk || by rewrite lookup_forget, He).
  - rewrite !Del_absent by done. apply blind_ret.
Qed.

Lemma blind_bind_ret {A B} (m m' : M A) (f : A → B) c c' w w' :
  blind (m c w) = blind (m' c' w') →
  blind (bind m (λ a, ret (f a)) c w) = blind (bind m' (λ a, ret (f a)) c' w').
Proof.
  unfold bind, ret.
  destruct (m c w) as [[[a c1] w1]|], (m' c' w') as [[[a' c1'] w1']|];
    unfold blind; try done.
  generalize (forget c1), (forget c1'). intros x y Heq. by injection Heq as -> -> ->.
Qed.

(** What an operation other than [Get] returns, does to the world and
    leaves in the cache does not depend on the clock or on any deadline
    in the cache, up to the deadlines it leaves. *)
Lemma exec_blind o c w now1 now2 :
  is_Get o = false →
  blind (exec zero o now1 c w) = blind (exec zero o now2 (forget c) w).
Proof.
  intros Ho. destruct o as [k v|k v t|k|k| |]; try done; unfold exec.
  - apply (blind_bind_ret (Put k v now1) (Put k v now2)).
    rewrite !Put_eq. apply PutWithTimeout_blind.
  - apply (blind_bind_ret (PutWithTimeout k v t now1) (PutWithTimeout k v t now2)).
    apply PutWithTimeout_blind.
  - apply (blind_bind_ret (Del zero k) (Del zero k)). apply Del_blind.
  - apply (blind_bind_ret Len Len). rewrite !Len_eq.
    apply (blind_ret (Z.of_nat (size (hash c))) c w).
  - apply (blind_bind_ret Close Close). rewrite !Close_eq.
    apply (blind_ret tt (with_lst (λ _, []) (with_hash (λ _, ∅) c)) w).
Qed.

(** ** Inserting a new key *)

Lemma PutWithTimeout_new_cases c w k v t now :
  wf c → hash c !! k = None →
  let en := ListEntry k v (Add now (clamp t)) in
  ∃ c' w',
    PutWithTimeout k v t now c w = Some (tt, c', w') ∧
    ((c' = pushed k en c ∧ w' = w ∧ entries c' = en :: entries c ∧
      size (hash c') = S (size (hash c))) ∨
     (∃ eb enb,
        List_.Back (lst (pushed k en c)) = Some eb ∧
        elems (pushed k en c) !! eb = Some enb ∧
        c' = unlink eb enb (pushed k en c) ∧
        w' = notify (onEvicted c) enb w ∧
        entries c' = removelast (en :: entries c) ∧
        size (hash c') = size (hash c))).
Proof.
  intros Hwf Hk en.
  assert (wf (pushed k en c)) as Hwf1 by (by apply wf_pushed).
  pose proof (entries_pushed c k en Hwf) as Hes.
  assert (size (hash (pushed k en c)) = S (size (hash c))) as Hsz.
  { rewrite (size_hash _ Hwf1), (size_hash _ Hwf). done. }
  rewrite PutWithTimeout_new, lazyRemoveOldest_eq by done. fold en.
  case_decide as Hcap.
  - destruct (List_.Back (lst (pushed k en c))) as [eb|] eqn:Hb.
    2:{ unfold List_.Back in Hb. by apply last_None in Hb. }
    assert (eb ∈ lst (pushed k en c)) as Hin.
    { unfold List_.Back in Hb. apply last_Some in Hb as [l' ->].
      apply elem_of_app. right. by left. }
    destruct (wf_lst _ Hwf1 eb Hin) as (enb & Heb & _).
    rewrite (removeElem_Some _ _ _ enb) by done.
    destruct (entries_Back _ eb enb en Hwf1 Hb Heb) as [_ Hrm].
    rewrite Hes in Hrm.
    pose proof (wf_unlink _ eb enb Hwf1 Hin Heb) as Hwf2.
    eexists _, _. split; [done|]. right. exists eb, enb.
    repeat (split; [done|]).
    rewrite (size_hash _ Hwf2), <- (length_entries _ Hwf2), Hrm.
    rewrite length_removelast_cons, (length_entries _ Hwf).
    by rewrite (size_hash _ Hwf).
  - eexists _, _. split; [done|]. by left.
Qed.

(** C3 (as amended).  On every reachable cache, for every configured
    [maxLen], a [PutWithTimeout] of a key that is not present completes
    and leaves at most [max maxLen 0] entries, that is, at most [maxLen]
    whenever [maxLen] is not negative; and it removed at most one entry:
    either none (the cache is the old one with the new element linked in
    front), or exactly the element at the back of the list after the
    insertion, reported to the callback once.  (With a negative [maxLen]
    the cache is left empty, which is more than [maxLen] entries.) *)
Theorem C3_capacity_after_insert (config : @Config Key Value World) c :
  reachable zero config c →
  ∀ k v t now w, hash c !! k = None →
    let en := ListEntry k v (Add now (clamp t)) in
    ∃ c' w',
      PutWithTimeout k v t now c w = Some (tt, c', w') ∧
      (Z.of_nat (size (hash c')) ≤ Z.max (MaxLen config) 0)%Z ∧
      ((c' = pushed k en c ∧ w' = w ∧ entries c' = en :: entries c ∧
        size (hash c') = S (size (hash c))) ∨
       (∃ eb enb,
          List_.Back (lst (pushed k en c)) = Some eb ∧
          elems (pushed k en c) !! eb = Some enb ∧
          c' = unlink eb enb (pushed k en c) ∧
          w' = notify (onEvicted c) enb w ∧
          entries c' = removelast (en :: entries c) ∧
          size (hash c') = size (hash c))).
Proof.
  intros Hr k v t now w Hk en.
  destruct (PutWithTimeout_new_cases c w k v t now (reachable_wf _ _ Hr) Hk)
    as (c' & w' & Hx & Hcases).
  exists c', w'. split; [done|]. split; [|done].
  assert (reachable zero config c') as Hr'.
  { apply (reachable_exec zero config c (OpPutWithTimeout k v t) now w RUnit c' w' Hr).
    unfold exec, bind. by rewrite Hx. }
  destruct (reachable_inv config c' Hr') as (_ & Hm & _ & _ & Hb).
  unfold bounded in Hb. by rewrite Hm in Hb.
Qed.

(** ** Reading *)

(** C4.  On every reachable cache: a [Get] of a key whose entry has a
    deadline strictly before the current time unlinks the element from
    the list, deletes the key from the index, calls the callback (if any)
    once, with the key and the value of the entry, and returns the zero
    value with found = false; a [Get] of an absent key returns found =
    false and changes nothing; and no other operation compares a deadline
    with the clock: what [Put], [PutWithTimeout], [Del], [Len] and
    [Close] return, do to the world and leave in the cache is the same
    for any two clock readings and any two caches that differ in their
    deadlines only. *)
Theorem C4_get_expires_lazily (config : @Config Key Value World) c :
  reachable zero config c →
  ∀ k now w,
    (∀ e en, hash c !! k = Some e → elems c !! e = Some en →
             (deadTime en < now)%Z →
       ∃ c', Get zero k now c w
             = Some ((zero, false), c', notify (onEvicted c) en w) ∧
             key en = k ∧
             hash c' = delete k (hash c) ∧ hash c' !! k = None ∧
             lst c' = List_.Remove e (lst c) ∧ (e ∉ lst c') ∧
             S (length (lst c')) = length (lst c)) ∧
    (hash c !! k = None → Get zero k now c w = Some ((zero, false), c, w)) ∧
    (∀ o c2 now1 now2, is_Get o = false → forget c2 = forget c →
       blind (exec zero o now1 c w) = blind (exec zero o now2 c2 w)).
Proof.
  intros Hr k now w. pose proof (reachable_wf _ _ Hr) as Hwf.
  split; [|split].
  - intros e en Hk He Hd.
    destruct (wf_hash c Hwf k e Hk) as (Hin & en' & He' & Hkey).
    assert (en' = en) as -> by congruence.
    exists (unlink e en c). split; [by apply Get_expired|].
    split; [done|]. simpl. rewrite Hkey.
    split; [done|]. split; [apply lookup_delete_eq|]. split; [done|].
    split.
    + rewrite List_facts.elem_of_Remove. tauto.
    + apply List_facts.length_Remove; [apply Hwf|done].
  - by apply Get_absent.
  - intros o c2 now1 now2 Ho Hf.
    rewrite (exec_blind o c w now1 0%Z Ho), (exec_blind o c2 w now2 0%Z Ho).
    by rewrite Hf.
Qed.

(** C7.  On every reachable cache, a [Get] of a key whose entry is
    present and not expired returns the stored value with found = true and
    changes nothing but the order of the list: the element moves to the
    front and the others keep their order; the elements and their entries
    (values and deadlines, also of the entry read), the index, the
    configuration, the number of entries and the world are as before. *)
Theorem C7_get_only_promotes (config : @Config Key Value World) c :
  reachable zero config c →
  ∀ k now w e en,
    hash c !! k = Some e → elems c !! e = Some en → ¬ (deadTime en < now)%Z →
    ∃ c', Get zero k now c w = Some ((value en, true), c', w) ∧
          elems c' = elems c ∧ hash c' = hash c ∧
          lst c' = e :: List_.Remove e (lst c) ∧
          lst c' ≡ₚ lst c ∧
          (∀ k', entry_of c' k' = entry_of c k') ∧
          size (hash c') = size (hash c) ∧
          length (lst c') = length (lst c) ∧
          maxLen c' = maxLen c ∧ onEvicted c' = onEvicted c ∧
          cacheTime c' = cacheTime c.
Proof.
  intros Hr k now w e en Hk He Hd. pose proof (reachable_wf _ _ Hr) as Hwf.
  destruct (wf_hash c Hwf k e Hk) as (Hin & _).
  exists (with_lst (List_.MoveToFront e) c).
  split; [by apply Get_live|]. simpl.
  pose proof (List_facts.MoveToFront_Permutation e (lst c) (wf_NoDup c Hwf)) as Hp.
  repeat (split; [done|]).
  split; [apply List_facts.MoveToFront_in; [apply Hwf|done]|].
  split; [done|]. split; [done|]. split; [done|].
  split; [by rewrite Hp|done].
Qed.

(** ** Deleting *)

(** C8.  On every reachable cache: [Del] of a present key unlinks its
    element, deletes the key from the index, calls the callback (if any)
    once with the key and the stored value, and returns the stored value;
    [Del] of an absent key returns the zero value and leaves the cache
    and the world as they were.  The result is a value and nothing else:
    when the stored value is the zero value, the two cases return the
    same. *)
Theorem C8_del (config : @Config Key Value World) c :
  reachable zero config c →
  ∀ k w,
    (∀ e en, hash c !! k = Some e → elems c !! e = Some en →
       ∃ c', Del zero k c w = Some (value en, c', notify (onEvicted c) en w) ∧
             key en = k ∧
             hash c' = delete k (hash c) ∧ hash c' !! k = None ∧
             lst c' = List_.Remove e (lst c) ∧ (e ∉ lst c') ∧
             S (length (lst c')) = length (lst c) ∧
             (value en = zero →
              ∀ c0 w0, hash c0 !! k = None →
                fst <$> observe (Del zero k c w)
                = fst <$> observe (Del zero k c0 w0))) ∧
    (hash c !! k = None → Del zero k c w = Some (zero, c, w)).
Proof.
  intros Hr k w. pose proof (reachable_wf _ _ Hr) as Hwf. split.
  - intros e en Hk He.
    destruct (wf_hash c Hwf k e Hk) as (Hin & en' & He' & Hkey).
    assert (en' = en) as -> by congruence.
    exists (unlink e en c). split; [by apply Del_present|].
    split; [done|]. simpl. rewrite Hkey.
    split; [done|]. split; [apply lookup_delete_eq|]. split; [done|].
    split; [rewrite List_facts.elem_of_Remove; tauto|].
    split; [apply List_facts.length_Remove; [apply Hwf|done]|].
    intros Hz c0 w0 Hk0.
    rewrite (Del_present c w k e en), Del_absent by done. simpl. by rewrite Hz.
  - by apply Del_absent.
Qed.

(** C10.  On every reachable cache, [Del] of a key whose entry is
    present but already past its deadline treats the entry as present: it
    returns the stored value, not the zero value, and calls the callback
    (if any) with the key and that value, where a [Get] at the same
    instant would have returned the zero value and found = false.  [Del]
    does not read the clock. *)
Theorem C10_del_ignores_expiry (config : @Config Key Value World) c :
  reachable zero config c →
  ∀ k now w e en,
    hash c !! k = Some e → elems c !! e = Some en → (deadTime en < now)%Z →
    Del zero k c w
    = Some (value en, unlink e en c, notify (onEvicted c) en w) ∧
    Get zero k now c w
    = Some ((zero, false), unlink e en c, notify (onEvicted c) en w).
Proof.
  intros Hr k now w e en Hk He Hd. split.
  - by apply Del_present.
  - by apply Get_expired.
Qed.

(** ** The time to live *)

Lemma clamp_idemp t : clamp (clamp t) = clamp t.
Proof. unfold clamp. lia. Qed.

Lemma PutWithTimeout_clamp c w k v t now :
  PutWithTimeout k v t now c w = PutWithTimeout k v (clamp t) now c w.
Proof. unfold PutWithTimeout. by rewrite !clamp_eq, clamp_idemp. Qed.

(** C6.  On every reachable cache, [PutWithTimeout] with a ttl below one
    second does exactly what it does with a ttl of one second, and in
    general what it does with [max ttl Second]; it completes, and the
    entry the key leads to afterwards, if any, has the deadline
    [now + max ttl Second].  With a capacity of at least 1 the entry is
    there, and a [Get] at [now'] finds it exactly when [now'] is not
    after that deadline: the effective time to live is at least one
    second. *)
Theorem C6_ttl_at_least_one_second (config : @Config Key Value World) c :
  reachable zero config c →
  ∀ k v t now w,
    PutWithTimeout k v t now c w
    = PutWithTimeout k v (Z.max t Second) now c w ∧
    ((t < Second)%Z →
     PutWithTimeout k v t now c w = PutWithTimeout k v Second now c w) ∧
    ∃ c' w',
      PutWithTimeout k v t now c w = Some (tt, c', w') ∧
      (∀ en, entry_of c' k = Some en →
             en = ListEntry k v (now + Z.max t Second)%Z) ∧
      ((1 ≤ MaxLen config)%Z →
       entry_of c' k = Some (ListEntry k v (now + Z.max t Second)%Z) ∧
       ∀ now', ∃ c'' w'',
         Get zero k now' c' w'
         = Some (if bool_decide (now + Z.max t Second < now')%Z
                 then (zero, false) else (v, true), c'', w'')).
Proof.
  intros Hr k v t now w.
  destruct (reachable_inv config c Hr) as (Hwf & Hm & _).
  split; [apply PutWithTimeout_clamp|]. split.
  - intros Hlt. rewrite PutWithTimeout_clamp. unfold clamp.
    by replace (Z.max t Second) with Second by lia.
  - destruct (PutWithTimeout_then_Get c w k v t now Hwf)
      as (c1 & w1 & Hx & _ & Hinv & Hget).
    exists c1, w1. split; [done|]. split; [done|].
    rewrite <- Hm. exact Hget.
Qed.

(** ** Least recently used goes first *)

Lemma afind_cons_eq k v d (es : list entry) :
  afind k (ListEntry k v d :: es) = Some (ListEntry k v d).
Proof. unfold afind. simpl. by rewrite bool_decide_eq_true_2. Qed.

Lemma afind_cons_ne k k' v d (es : list entry) :
  k' ≠ k → afind k (ListEntry k' v d :: es) = afind k es.
Proof. intros Hne. unfold afind. simpl. by rewrite bool_decide_eq_false_2. Qed.

Lemma adrop_cons_eq k v d (es : list entry) :
  adrop k (ListEntry k v d :: es) = adrop k es.
Proof. unfold adrop. by rewrite filter_cons_False by (intros Hc; by apply Hc). Qed.

Lemma adrop_cons_ne k k' v d (es : list entry) :
  k' ≠ k → adrop k (ListEntry k' v d :: es) = ListEntry k' v d :: adrop k es.
Proof. intros Hne. unfold adrop. by rewrite filter_cons_True. Qed.

Lemma aput_room (cb : option callback) cap k v t now (es : list entry) w :
  afind k es = None → (Z.of_nat (S (length es)) ≤ cap)%Z →
  aput cb cap k v t now es w = (ListEntry k v (Add now (clamp t)) :: es, w).
Proof.
  intros Hf Hcap. unfold aput. rewrite Hf. by rewrite decide_False by lia.
Qed.

Lemma aput_full (cb : option callback) cap k v t now (es : list entry) w :
  afind k es = None → (Z.of_nat (S (length es)) > cap)%Z →
  aput cb cap k v t now es w
  = (removelast (ListEntry k v (Add now (clamp t)) :: es),
     notify cb (List.last es (ListEntry k v (Add now (clamp t)))) w).
Proof. intros Hf Hcap. unfold aput. rewrite Hf. by rewrite decide_True. Qed.

Lemma aget_live (cb : option callback) k now (es : list entry) w en :
  afind k es = Some en → ¬ (deadTime en < now)%Z →
  aget zero cb k now es w = ((value en, true), en :: adrop k es, w).
Proof.
  intros Hf Hd. unfold aget, Before. rewrite Hf.
  by rewrite bool_decide_eq_false_2.
Qed.

Lemma aget_absent (cb : option callback) k now (es : list entry) w :
  afind k es = None → aget zero cb k now es w = ((zero, false), es, w).
Proof. intros Hf. unfold aget. by rewrite Hf. Qed.

Lemma clamp_ge t : (Second ≤ clamp t)%Z.
Proof. unfold clamp. lia. Qed.


Lemma adrop_nil k : adrop k [] = @nil entry.
Proof. done. Qed.

Lemma afind_nil k : afind k (@nil entry) = None.
Proof. done. Qed.

Lemma arun_scenario (cb : option callback) d ka kb kc va vb vc
    t1 t2 t3 t4 t5 t6 t7 w :
  ka ≠ kb → ka ≠ kc → kb ≠ kc →
  (t3 ≤ Add t1 (clamp d))%Z → (t5 ≤ Add t1 (clamp d))%Z →
  (t7 ≤ Add t4 (clamp d))%Z →
  arun zero cb 2%Z d
    [(OpPut ka va, t1); (OpPut kb vb, t2); (OpGet ka, t3); (OpPut kc vc, t4);
     (OpGet ka, t5); (OpGet kb, t6); (OpGet kc, t7)] [] w
  = ([RUnit; RUnit; RGet va true; RUnit;
      RGet va true; RGet zero false; RGet vc true],
     [ListEntry kc vc (Add t4 (clamp d)); ListEntry ka va (Add t1 (clamp d))],
     notify cb (ListEntry kb vb (Add t2 (clamp d))) w).
Proof.
  intros Hab Hac Hbc H3 H5 H7.
  assert (kb ≠ ka) as Hba by done. assert (kc ≠ ka) as Hca by done.
  assert (kc ≠ kb) as Hcb by done.
  cbn [arun aexec].
  rewrite (aput_room cb 2%Z ka va d t1 [] w) by (done || (simpl; lia)).
  rewrite (aput_room cb 2%Z kb vb d t2) by (by rewrite afind_cons_ne || (simpl; lia)).
  rewrite (aget_live cb ka t3 _ w (ListEntry ka va (Add t1 (clamp d))))
    by (by rewrite afind_cons_ne, afind_cons_eq || (simpl; lia)).
  rewrite adrop_cons_ne, adrop_cons_eq, adrop_nil by done. cbn [value fst snd].
  rewrite (aput_full cb 2%Z kc vc d t4)
    by (by rewrite !afind_cons_ne, afind_nil || (simpl; lia)).
  cbn [removelast List.last].
  rewrite (aget_live cb ka t5 _ _ (ListEntry ka va (Add t1 (clamp d))))
    by (by rewrite afind_cons_ne, afind_cons_eq || (simpl; lia)).
  rewrite adrop_cons_ne, adrop_cons_eq, adrop_nil by done. cbn [value fst snd].
  rewrite (aget_absent cb kb t6) by (by rewrite !afind_cons_ne, afind_nil).
  cbn [fst snd].
  rewrite (aget_live cb kc t7 _ _ (ListEntry kc vc (Add t4 (clamp d))))
    by (by rewrite afind_cons_ne, afind_cons_eq || (simpl; lia)).
  rewrite adrop_cons_ne, adrop_cons_eq, adrop_nil by done. cbn [value fst snd].
  done.
Qed.

(** C5.  With [maxLen] = 2 and no intervening expiry (no read of [A] or
    [C] is later than the deadline the entry got when it was inserted):
    after [Put A], [Put B], [Get A], [Put C] on a new cache, [Get A] and
    [Get C] return the stored values with found = true and [Get B] returns
    found = false.  The entry of [B], the least recently touched, was
    evicted by the insert of [C], with one call of the callback, and two
    entries remain, those of [C] and [A]. *)
Theorem C5_lru_order (cb : option callback) ttl ka kb kc va vb vc
    t1 t2 t3 t4 t5 t6 t7 w :
  ka ≠ kb → ka ≠ kc → kb ≠ kc →
  (t3 ≤ Put_deadline (MkConfig 2 cb ttl) t1)%Z →
  (t5 ≤ Put_deadline (MkConfig 2 cb ttl) t1)%Z →
  (t7 ≤ Put_deadline (MkConfig 2 cb ttl) t4)%Z →
  ∃ c',
    run zero
      [(OpPut ka va, t1); (OpPut kb vb, t2); (OpGet ka, t3); (OpPut kc vc, t4);
       (OpGet ka, t5); (OpGet kb, t6); (OpGet kc, t7)]
      (NewCacheWithConfig (MkConfig 2 cb ttl)) w
    = Some ([RUnit; RUnit; RGet va true; RUnit;
             RGet va true; RGet zero false; RGet vc true],
            c',
            match cb with Some f => f kb vb w | None => w end) ∧
    key <$> entries c' = [kc; ka] ∧
    Z.of_nat (size (hash c')) = 2%Z.
Proof.
  intros Hab Hac Hbc H3 H5 H7.
  set (cfg := MkConfig 2 cb ttl).
  destruct (run_agrees
              [(OpPut ka va, t1); (OpPut kb vb, t2); (OpGet ka, t3);
               (OpPut kc vc, t4); (OpGet ka, t5); (OpGet kb, t6); (OpGet kc, t7)]
              (NewCacheWithConfig cfg) w (wf_NewCacheWithConfig cfg))
    as (c' & Hx & Hwf' & _ & _ & _ & Hes).
  change (entries (NewCacheWithConfig cfg)) with (@nil entry) in *.
  change (onEvicted (NewCacheWithConfig cfg)) with cb in *.
  change (maxLen (NewCacheWithConfig cfg)) with 2%Z in *.
  rewrite arun_scenario in Hx, Hes by done. simpl in Hx, Hes.
  exists c'. split; [exact Hx|]. rewrite Hes. split; [done|].
  by rewrite (size_hash _ Hwf'), <- (length_entries _ Hwf'), Hes.
Qed.

End facts.

(** * Further properties of the code *)

Section more_facts.

Context {Key : Type} `{Countable Key}.
Context {Value : Type} (zero : Value).
Context {World : Type}.

Abbreviation cache := (@lruCache Key _ _ Value World).
Abbreviation entry := (@listEntry Key Value).
Abbreviation callback := (@OnEvicted Key Value World).

Implicit Types (c : cache) (en : entry) (w : World) (e : loc) (k : Key)
  (v : Value) (now : Time) (t : Duration).

(** ** The constructor and the configuration *)

(** X2.  No method writes the configuration: every reachable cache has
    the [maxLen] and the callback it was built with, and the default time
    to live the constructor chose, which is the configured one unless that
    is below one millisecond, and one minute then; it is never below one
    millisecond. *)
Theorem X2_configuration_is_fixed (config : @Config Key Value World) c :
  reachable zero config c →
  maxLen c = MaxLen config ∧
  onEvicted c = Callback config ∧
  cacheTime c = (if decide (CacheTime config < Millisecond)%Z
                 then Minute else CacheTime config) ∧
  (Millisecond ≤ cacheTime c)%Z.
Proof.
  intros Hr. destruct (reachable_inv zero config c Hr) as (_ & Hm & Hcb & Ht & _).
  split; [done|]. split; [done|]. rewrite Ht. simpl.
  unfold DefaultCacheTime. split; [done|].
  case_decide; [|lia]. unfold Minute, Second, Millisecond. lia.
Qed.

Lemma clamp_cacheTime (config : @Config Key Value World) :
  clamp (cacheTime (NewCacheWithConfig config)) = Put_ttl config.
Proof.
  unfold Put_ttl, clamp. simpl. unfold DefaultCacheTime.
  case_decide; [|done]. unfold Minute, Second, Millisecond. lia.
Qed.

(** X1.  On every reachable cache [Put] completes, and the entry the key
    then leads to, if any, holds the value and the deadline [now] plus the
    time to live of [Put]: one minute when the configured [CacheTime] is
    below one millisecond, and otherwise the configured one raised to one
    second.  With a capacity of at least 1 the entry is there. *)
Theorem X1_put_time_to_live (config : @Config Key Value World) c :
  reachable zero config c →
  ∀ k v now w,
    ∃ c' w',
      Put k v now c w = Some (tt, c', w') ∧
      (∀ en, entry_of c' k = Some en →
             en = ListEntry k v (now + Put_ttl config)%Z) ∧
      ((1 ≤ MaxLen config)%Z →
       entry_of c' k = Some (ListEntry k v (now + Put_ttl config)%Z)).
Proof.
  intros Hr k v now w.
  destruct (reachable_inv zero config c Hr) as (Hwf & Hm & _ & Ht & _).
  destruct (PutWithTimeout_then_Get zero c w k v (cacheTime c) now Hwf)
    as (c1 & w1 & Hx & _ & Hinv & Hget).
  rewrite Ht, clamp_cacheTime in Hinv, Hget. rewrite Hm in Hget.
  exists c1, w1. rewrite Put_eq. split; [done|]. split; [done|].
  intros Hcap. by destruct (Hget Hcap).
Qed.

(** ** The size *)

(** X3.  On every reachable cache [Len] changes nothing and returns the
    number of linked elements, which is the number of entries whether or
    not their deadlines have passed; it lies between 0 and
    [max maxLen 0]. *)
Theorem X3_len_counts_all_entries (config : @Config Key Value World) c :
  reachable zero config c →
  ∀ w,
    Len c w = Some (Z.of_nat (length (lst c)), c, w) ∧
    length (lst c) = length (entries c) ∧
    (0 ≤ Z.of_nat (length (lst c)) ≤ Z.max (MaxLen config) 0)%Z.
Proof.
  intros Hr w.
  destruct (reachable_inv zero config c Hr) as (Hwf & Hm & _ & _ & Hb).
  rewrite Len_eq, (size_hash c Hwf). split; [done|].
  split; [by rewrite (length_entries c Hwf)|].
  unfold bounded in Hb. rewrite (size_hash c Hwf), Hm in Hb. lia.
Qed.

(** ** Without a callback *)

Lemma aexec_no_callback cap ttl o now (es : list entry) w :
  (aexec zero (None : option callback) cap ttl o now es w).2 = w.
Proof.
  destruct o as [k v|k v t|k|k| |]; simpl; try done.
  - unfold aput. destruct (afind k es); [done|]. by case_decide.
  - unfold aput. destruct (afind k es); [done|]. by case_decide.
  - unfold aget. destruct (afind k es); [|done]. by destruct (Before _ _).
  - unfold adel. by destruct (afind k es).
Qed.

Lemma arun_no_callback cap ttl tr (es : list entry) w :
  (arun zero (None : option callback) cap ttl tr es w).2 = w.
Proof.
  revert es w. induction tr as [|[o now] tr IH]; intros es w; [done|]. simpl.
  pose proof (aexec_no_callback cap ttl o now es w) as Hw.
  destruct (aexec _ _ _ _ _ _ _ _) as [[r es1] w1]. simpl in Hw. subst w1.
  pose proof (IH es1 w) as Hw.
  by destruct (arun _ _ _ _ _ _ _) as [[rs es2] w2].
Qed.

(** X7.  A cache built without a callback, as [NewCache] builds it, never
    acts on the world: every sequence of calls on any cache reachable from
    such a configuration completes and leaves the world as it was. *)
Theorem X7_no_callback_no_effect (config : @Config Key Value World) c :
  reachable zero config c → Callback config = None →
  ∀ tr w, ∃ rs c', run zero tr c w = Some (rs, c', w).
Proof.
  intros Hr Hcb tr w.
  destruct (reachable_inv zero config c Hr) as (Hwf & _ & Hcb' & _).
  destruct (run_agrees zero tr c w Hwf) as (c' & Hx & _).
  rewrite Hcb', Hcb, arun_no_callback in Hx. by eexists _, c'.
Qed.

(** ** What a caller can tell apart *)

(** X10.  Two reachable caches with the same capacity, callback and
    default time to live and the same entries in the same recency order
    cannot be told apart: every sequence of calls returns the same results
    and acts on the world in the same way on both, whatever their
    histories, the addresses of their elements and the elements they
    dropped. *)
Theorem X10_entries_determine_behaviour
    (config1 config2 : @Config Key Value World) c1 c2 :
  reachable zero config1 c1 → reachable zero config2 c2 →
  maxLen c1 = maxLen c2 → onEvicted c1 = onEvicted c2 →
  cacheTime c1 = cacheTime c2 → entries c1 = entries c2 →
  ∀ tr w, observe (run zero tr c1 w) = observe (run zero tr c2 w).
Proof.
  intros Hr1 Hr2 Hm Hcb Ht Hes tr w.
  destruct (run_agrees zero tr c1 w (reachable_wf zero _ _ Hr1)) as (c1' & Hx1 & _).
  destruct (run_agrees zero tr c2 w (reachable_wf zero _ _ Hr2)) as (c2' & Hx2 & _).
  rewrite Hx1, Hx2. simpl. by rewrite Hm, Hcb, Ht, Hes.
Qed.

(** ** Finding entries in the list *)

Lemma afind_cons k en (es : list entry) :
  afind k (en :: es) = if decide (key en = k) then Some en else afind k es.
Proof.
  unfold afind. simpl. case_decide.
  - by rewrite bool_decide_eq_true_2.
  - by rewrite bool_decide_eq_false_2.
Qed.

Lemma afind_key k (es : list entry) en : afind k es = Some en → key en = k.
Proof.
  induction es as [|a es IH]; [done|]. rewrite afind_cons.
  case_decide; [congruence|done].
Qed.

Lemma afind_None_inv k (es : list entry) x :
  afind k es = None → x ∈ es → key x ≠ k.
Proof.
  induction es as [|a es IH]; intros Hf Hx; [by apply elem_of_nil in Hx|].
  rewrite afind_cons in Hf. case_decide; [done|].
  apply elem_of_cons in Hx as [->|Hx]; [done|by apply IH].
Qed.

Lemma afind_adrop_eq k (es : list entry) : afind k (adrop k es) = None.
Proof.
  apply afind_None. intros en Hen. unfold adrop in Hen.
  by apply list_elem_of_filter in Hen as [Hne _].
Qed.

Lemma afind_adrop_ne k k' (es : list entry) :
  k' ≠ k → afind k' (adrop k es) = afind k' es.
Proof.
  intros Hne. induction es as [|a es IH]; [done|].
  destruct (decide (key a = k)) as [Hk|Hk].
  - unfold adrop in *. rewrite filter_cons_False by (intros Hc; by apply Hc).
    rewrite afind_cons, decide_False by congruence. done.
  - unfold adrop in *. rewrite filter_cons_True by done.
    rewrite !afind_cons. by case_decide.
Qed.

Lemma afind_snoc_ne k (es : list entry) x :
  key x ≠ k → afind k (es ++ [x]) = afind k es.
Proof.
  intros Hne. induction es as [|a es IH]; cbn [app].
  - by rewrite afind_cons, decide_False.
  - rewrite !afind_cons. by case_decide.
Qed.

Lemma afind_snoc_eq (es : list entry) x :
  NoDup (key <$> (es ++ [x])) →
  afind (key x) es = None ∧ afind (key x) (es ++ [x]) = Some x.
Proof.
  intros Hnd. split.
  - apply afind_None. intros en Hen Hk.
    rewrite fmap_app in Hnd. apply NoDup_app in Hnd as (_ & Hd & _).
    apply (Hd (key en)); [apply list_elem_of_fmap; by exists en|].
    rewrite Hk. simpl. by left.
  - apply afind_Some; [done|]. apply elem_of_app. right. by left.
Qed.

Lemma entry_of_Some c k en :
  entry_of c k = Some en →
  ∃ e, hash c !! k = Some e ∧ elems c !! e = Some en.
Proof.
  unfold entry_of. destruct (hash c !! k) as [e|]; [|done]. intros He. by exists e.
Qed.

(** ** Updating a key that is present *)

(** X4.  On every reachable cache, [PutWithTimeout] of a key that is
    present completes without calling the callback and without changing
    the index or the number of entries: the element of the key moves to the
    front, its entry takes the new value and the deadline
    [now + max t Second], and every other key leads to the entry it led to
    before.  A [Get] of the key no later than the new deadline returns the
    new value. *)
Theorem X4_put_existing_updates (config : @Config Key Value World) c :
  reachable zero config c →
  ∀ k v t now w e en,
    hash c !! k = Some e → elems c !! e = Some en →
    ∃ c',
      PutWithTimeout k v t now c w = Some (tt, c', w) ∧
      hash c' = hash c ∧
      lst c' = e :: List_.Remove e (lst c) ∧
      elems c' = <[e := ListEntry k v (now + Z.max t Second)%Z]> (elems c) ∧
      entry_of c' k = Some (ListEntry k v (now + Z.max t Second)%Z) ∧
      (∀ k', k' ≠ k → entry_of c' k' = entry_of c k') ∧
      (∀ now', (now' ≤ now + Z.max t Second)%Z →
         ∃ c'', Get zero k now' c' w = Some ((v, true), c'', w)).
Proof.
  intros Hr k v t now w e en Hk He. pose proof (reachable_wf zero _ _ Hr) as Hwf.
  destruct (wf_hash c Hwf k e Hk) as (Hin & en' & He' & Hkey).
  assert (en' = en) as -> by congruence.
  rewrite (PutWithTimeout_existing c w k v t now e en) by done. rewrite Hkey.
  set (en1 := ListEntry k v (Add now (clamp t))).
  assert (elems (updated e en1 c) !! e = Some en1) as He1
    by (simpl; apply lookup_insert_eq).
  assert (entry_of (updated e en1 c) k = Some en1) as Hen1.
  { unfold entry_of. change (hash (updated e en1 c)) with (hash c). by rewrite Hk. }
  exists (updated e en1 c). split; [done|]. split; [done|].
  split; [simpl; apply List_facts.MoveToFront_in; [apply Hwf|done]|].
  split; [done|]. split; [done|]. split.
  - intros k' Hne. unfold entry_of. change (hash (updated e en1 c)) with (hash c).
    destruct (hash c !! k') as [e'|] eqn:Hk'; [|done]. simpl.
    rewrite lookup_insert_ne; [done|]. intros <-.
    destruct (wf_hash c Hwf k' e Hk') as (_ & en2 & He2 & Hkey2). congruence.
  - intros now' Hle. eexists.
    apply (Get_live zero (updated e en1 c) w k now' e en1); [done|done|].
    unfold en1, Add, clamp. simpl. lia.
Qed.

(** ** Deleting, again *)

(** X8.  On every reachable cache [Del] completes, and afterwards the key
    is absent: a second [Del] returns the zero value and a [Get] at any
    time returns found = false, both without calling the callback and
    without changing the cache. *)
Theorem X8_del_leaves_key_absent (config : @Config Key Value World) c :
  reachable zero config c →
  ∀ k w,
    ∃ v c1 w1,
      Del zero k c w = Some (v, c1, w1) ∧
      entry_of c1 k = None ∧
      Del zero k c1 w1 = Some (zero, c1, w1) ∧
      ∀ now, Get zero k now c1 w1 = Some ((zero, false), c1, w1).
Proof.
  intros Hr k w. pose proof (reachable_wf zero _ _ Hr) as Hwf.
  destruct (hash c !! k) as [e|] eqn:Hk.
  - destruct (wf_hash c Hwf k e Hk) as (Hin & en & He & Hkey).
    assert (hash (unlink e en c) !! k = None) as Hk1
      by (simpl; rewrite Hkey; apply lookup_delete_eq).
    eexists _, _, _. split; [by apply (Del_present zero c w k e en)|].
    split; [unfold entry_of; by rewrite Hk1|].
    split; [by apply Del_absent|]. intros now. by apply Get_absent.
  - exists zero, c, w. split; [by apply Del_absent|].
    split; [unfold entry_of; by rewrite Hk|].
    split; [by apply Del_absent|]. intros now. by apply Get_absent.
Qed.

(** X14.  On every reachable cache with a capacity of at least 1, an
    insert followed by [Del] of the same key returns the value inserted,
    whatever the time between the two, calls the callback once more, with
    the key and that value, and leaves the key absent. *)
Theorem X14_put_then_del (config : @Config Key Value World) c :
  reachable zero config c → (1 ≤ MaxLen config)%Z →
  ∀ k v t now w,
    ∃ c1 w1 c2,
      PutWithTimeout k v t now c w = Some (tt, c1, w1) ∧
      Del zero k c1 w1
      = Some (v, c2, match Callback config with
                     | Some f => f k v w1
                     | None => w1
                     end) ∧
      entry_of c2 k = None.
Proof.
  intros Hr Hcap k v t now w.
  destruct (reachable_inv zero config c Hr) as (Hwf & Hm & Hcb & _).
  destruct (PutWithTimeout_agrees c w k v t now Hwf)
    as (c1 & Hx & Hwf1 & _ & Hcb1 & _).
  destruct (PutWithTimeout_then_Get zero c w k v t now Hwf)
    as (c1' & w1 & Hx' & _ & _ & Hget).
  rewrite Hx in Hx'. injection Hx' as <- Hw1.
  rewrite Hm in Hget. destruct (Hget Hcap) as [Hen _].
  apply entry_of_Some in Hen as (e & Hk & He).
  exists c1, w1, (unlink e (ListEntry k v (Add now (clamp t))) c1).
  split; [by rewrite Hx, Hw1|]. split.
  - rewrite (Del_present zero c1 w1 k e _ Hk He). unfold notify. simpl.
    by rewrite Hcb1, Hcb.
  - unfold entry_of. simpl. by rewrite lookup_delete_eq.
Qed.

(** ** Which entries a call can remove *)

Lemma aexec_entries (cb : option callback) cap ttl o now (es : list entry) w :
  (aexec zero cb cap ttl o now es w).1.2
  = match o with
    | OpPut k v => (aput cb cap k v ttl now es w).1
    | OpPutWithTimeout k v t => (aput cb cap k v t now es w).1
    | OpGet k => (aget zero cb k now es w).1.2
    | OpDel k => (adel zero cb k es w).1.2
    | OpLen => es
    | OpClose => []
    end.
Proof.
  destruct o as [k v|k v t|k|k| |]; simpl; try done.
  - by destruct (aput _ _ _ _ _ _ _ _).
  - by destruct (aput _ _ _ _ _ _ _ _).
  - by destruct (aget _ _ _ _ _ _) as [[? ?] ?].
  - by destruct (adel _ _ _ _ _) as [[? ?] ?].
Qed.

Lemma aexec_world (cb : option callback) cap ttl o now (es : list entry) w :
  (aexec zero cb cap ttl o now es w).2
  = match o with
    | OpPut k v => (aput cb cap k v ttl now es w).2
    | OpPutWithTimeout k v t => (aput cb cap k v t now es w).2
    | OpGet k => (aget zero cb k now es w).2
    | OpDel k => (adel zero cb k es w).2
    | OpLen | OpClose => w
    end.
Proof.
  destruct o as [k v|k v t|k|k| |]; simpl; try done.
  - by destruct (aput _ _ _ _ _ _ _ _).
  - by destruct (aput _ _ _ _ _ _ _ _).
  - by destruct (aget _ _ _ _ _ _) as [[? ?] ?].
  - by destruct (adel _ _ _ _ _) as [[? ?] ?].
Qed.

Lemma aput_frame (cb : option callback) cap k v t now (es : list entry) w k' :
  NoDup (key <$> es) → k' ≠ k →
  afind k' (aput cb cap k v t now es w).1 = afind k' es ∨
  (afind k' (aput cb cap k v t now es w).1 = None ∧ afind k es = None ∧
   (cap ≤ Z.of_nat (length es))%Z ∧ ∃ en', last es = Some en' ∧ key en' = k').
Proof.
  intros Hnd Hne. unfold aput. destruct (afind k es) as [en|] eqn:Hf; cbn [fst].
  - left. rewrite afind_cons, decide_False by (simpl; congruence).
    by apply afind_adrop_ne.
  - case_decide as Hfull; cbn [fst].
    2:{ left. by rewrite afind_cons, decide_False by (simpl; congruence). }
    destruct (decide (es = [])) as [->|Hnil]; [by left|].
    destruct (exists_last Hnil) as (es0 & x & ->).
    change (?a :: es0 ++ [x]) with ((a :: es0) ++ [x]). rewrite removelast_last.
    rewrite afind_cons, decide_False by (simpl; congruence).
    destruct (decide (key x = k')) as [Hx|Hx].
    + right. destruct (afind_snoc_eq es0 x Hnd) as [Hnone _].
      rewrite <- Hx. split; [done|]. split; [done|]. split; [lia|].
      exists x. by rewrite last_snoc.
    + left. by rewrite afind_snoc_ne.
Qed.

Lemma aexec_frame (cb : option callback) cap ttl o now (es : list entry) w k k' :
  NoDup (key <$> es) → key_of o = Some k → k' ≠ k →
  afind k' (aexec zero cb cap ttl o now es w).1.2 = afind k' es ∨
  (afind k' (aexec zero cb cap ttl o now es w).1.2 = None ∧
   afind k es = None ∧ is_Some (inserted ttl o now) ∧
   (cap ≤ Z.of_nat (length es))%Z ∧ ∃ en', last es = Some en' ∧ key en' = k').
Proof.
  intros Hnd Ho Hne. rewrite aexec_entries.
  destruct o as [k0 v|k0 v t|k0|k0| |]; simpl in Ho; try done;
    injection Ho as ->.
  - destruct (aput_frame cb cap k v ttl now es w k' Hnd Hne) as [?|(? & ? & ?)];
      [by left|right]. split; [done|]. split; [done|]. split; [by eexists|done].
  - destruct (aput_frame cb cap k v t now es w k' Hnd Hne) as [?|(? & ? & ?)];
      [by left|right]. split; [done|]. split; [done|]. split; [by eexists|done].
  - left. unfold aget. destruct (afind k es) as [en|] eqn:Hf; [|done].
    apply afind_key in Hf as Hkey. destruct (Before _ _); cbn [fst snd].
    + by apply afind_adrop_ne.
    + rewrite afind_cons, decide_False by congruence. by apply afind_adrop_ne.
  - left. unfold adel. destruct (afind k es) as [en|] eqn:Hf; [|done].
    cbn [fst snd]. by apply afind_adrop_ne.
Qed.

Lemma is_Some_afind_cons k en (es : list entry) :
  is_Some (afind k es) → is_Some (afind k (en :: es)).
Proof. intros Hs. rewrite afind_cons. by case_decide. Qed.

Lemma is_Some_afind_touch k k0 en (es : list entry) :
  key en = k → is_Some (afind k0 es) → is_Some (afind k0 (en :: adrop k es)).
Proof.
  intros Hk Hs. rewrite afind_cons. case_decide; [done|].
  rewrite afind_adrop_ne; [done|congruence].
Qed.

Lemma aput_accounting (cb : option callback) cap k v t now (es : list entry) w :
  NoDup (key <$> es) →
  let x := aput cb cap k v t now es w in
  (x.2 = w ∧ ∀ k0, is_Some (afind k0 es) → is_Some (afind k0 x.1)) ∨
  (∃ en, x.2 = notify cb en w ∧ afind (key en) x.1 = None ∧
     (afind (key en) es = Some en ∨
      (es = [] ∧ en = ListEntry k v (Add now (clamp t)))) ∧
     ∀ k0, k0 ≠ key en → is_Some (afind k0 es) → is_Some (afind k0 x.1)).
Proof.
  intros Hnd. unfold aput. destruct (afind k es) as [en|] eqn:Hf; cbn [fst snd].
  - left. split; [done|]. intros k0. by apply is_Some_afind_touch.
  - case_decide as Hfull; cbn [fst snd].
    2:{ left. split; [done|]. intros k0. apply is_Some_afind_cons. }
    right. destruct (decide (es = [])) as [->|Hnil].
    + eexists. split; [done|]. split; [done|]. split; [by right|].
      intros k0 _ Hs. by destruct Hs.
    + destruct (exists_last Hnil) as (es0 & x & ->). exists x.
      rewrite last_last.
      change (?a :: es0 ++ [x]) with ((a :: es0) ++ [x]). rewrite removelast_last.
      destruct (afind_snoc_eq es0 x Hnd) as [Hnone Hsome].
      assert (key x ≠ k) as Hxk.
      { apply (afind_None_inv k (es0 ++ [x])); [done|].
        apply elem_of_app. right. by left. }
      split; [done|]. split.
      { by rewrite afind_cons, decide_False by (simpl; congruence). }
      split; [by left|]. intros k0 Hk0 Hs.
      apply is_Some_afind_cons. by rewrite afind_snoc_ne in Hs.
Qed.

Lemma aexec_accounting (cb : option callback) cap ttl o now (es : list entry) w :
  NoDup (key <$> es) → o ≠ OpClose →
  let x := aexec zero cb cap ttl o now es w in
  (x.2 = w ∧ ∀ k0, is_Some (afind k0 es) → is_Some (afind k0 x.1.2)) ∨
  (∃ en, x.2 = notify cb en w ∧ afind (key en) x.1.2 = None ∧
     (afind (key en) es = Some en ∨ (es = [] ∧ inserted ttl o now = Some en)) ∧
     ∀ k0, k0 ≠ key en → is_Some (afind k0 es) → is_Some (afind k0 x.1.2)).
Proof.
  intros Hnd Ho. cbv zeta. rewrite aexec_entries, aexec_world.
  destruct o as [k v|k v t|k|k| |]; try done.
  - destruct (aput_accounting cb cap k v ttl now es w Hnd)
      as [?|(en & ? & ? & Hor & ?)]; [by left|right; exists en].
    split; [done|]. split; [done|]. split; [|done].
    destruct Hor as [?|[? ->]]; [by left|by right].
  - destruct (aput_accounting cb cap k v t now es w Hnd)
      as [?|(en & ? & ? & Hor & ?)]; [by left|right; exists en].
    split; [done|]. split; [done|]. split; [|done].
    destruct Hor as [?|[? ->]]; [by left|by right].
  - unfold aget. destruct (afind k es) as [en|] eqn:Hf; [|by left].
    apply afind_key in Hf as Hkey. destruct (Before _ _); cbn [fst snd].
    + right. exists en. rewrite Hkey. split; [done|].
      split; [apply afind_adrop_eq|]. split; [by left|].
      intros k0 Hk0 Hs. by rewrite afind_adrop_ne.
    + left. split; [done|]. intros k0. by apply is_Some_afind_touch.
  - unfold adel. destruct (afind k es) as [en|] eqn:Hf; [|by left].
    apply afind_key in Hf as Hkey. cbn [fst snd].
    right. exists en. rewrite Hkey. split; [done|].
    split; [apply afind_adrop_eq|]. split; [by left|].
    intros k0 Hk0 Hs. by rewrite afind_adrop_ne.
  - by left.
Qed.

Lemma last_entries c :
  wf c → last (entries c) = last (lst c) ≫= λ e, elems c !! e.
Proof.
  intros Hwf. unfold entries.
  destruct (decide (lst c = [])) as [Hnil|Hnil]; [by rewrite Hnil|].
  destruct (exists_last Hnil) as (l & e & Hl).
  assert (e ∈ lst c) as Hin by (rewrite Hl; apply elem_of_app; right; by left).
  destruct (wf_lst c Hwf e Hin) as (en & He & _).
  rewrite Hl, omap_app, !last_snoc. csimpl. rewrite He. csimpl.
  by rewrite last_snoc.
Qed.

(** X5.  On every reachable cache, a call that names a key leaves every
    other key leading to the entry it led to before (same value, same
    deadline), with one exception: the key of the element at the back of
    the list leads nowhere after an insert of a key that was absent into a
    cache that already held at least [maxLen] entries. *)
Theorem X5_other_keys_keep_their_entries (config : @Config Key Value World) c :
  reachable zero config c →
  ∀ o now w r c' w' k k',
    exec zero o now c w = Some (r, c', w') → key_of o = Some k → k' ≠ k →
    entry_of c' k' = entry_of c k' ∨
    (entry_of c' k' = None ∧ entry_of c k = None ∧
     is_Some (inserted (cacheTime c) o now) ∧
     (maxLen c ≤ Z.of_nat (length (lst c)))%Z ∧
     ∃ e', List_.Back (lst c) = Some e' ∧ hash c !! k' = Some e').
Proof.
  intros Hr o now w r c' w' k k' Hex Ho Hne.
  pose proof (reachable_wf zero _ _ Hr) as Hwf.
  destruct (exec_agrees zero c w o now Hwf) as (c1 & Hx & Hwf1 & _ & _ & _ & Hes).
  rewrite Hex in Hx. injection Hx as _ <- _.
  rewrite <- (afind_entries c' k' Hwf1), <- (afind_entries c k' Hwf),
    <- (afind_entries c k Hwf), Hes, <- (length_entries c Hwf).
  destruct (aexec_frame (onEvicted c) (maxLen c) (cacheTime c) o now (entries c)
              w k k' (NoDup_keys c Hwf) Ho Hne)
    as [?|(? & ? & ? & ? & en' & Hlast & Hkey)]; [by left|right].
  repeat (split; [done|]).
  rewrite (last_entries c Hwf) in Hlast. unfold List_.Back.
  destruct (last (lst c)) as [e'|] eqn:Hb; [|done]. simpl in Hlast.
  exists e'. split; [done|].
  assert (e' ∈ lst c) as Hin.
  { apply last_Some in Hb as [l' ->]. apply elem_of_app. right. by left. }
  destruct (wf_lst c Hwf e' Hin) as (en2 & He2 & Hh). congruence.
Qed.

(** X6.  On every reachable cache, a call other than [Close] calls the
    callback at most once, and exactly when an entry leaves the cache: either
    the world is as before and every key that was present still is, or the
    callback was called once, with the key and value of an entry [en] whose
    key is absent afterwards while every other key that was present still
    is; [en] is an entry the cache held, or, on an empty cache, the entry
    this very call inserted. *)
Theorem X6_callback_once_per_removal (config : @Config Key Value World) c :
  reachable zero config c →
  ∀ o now w r c' w',
    exec zero o now c w = Some (r, c', w') → o ≠ OpClose →
    (w' = w ∧ ∀ k, is_Some (entry_of c k) → is_Some (entry_of c' k)) ∨
    (∃ en,
       w' = notify (onEvicted c) en w ∧
       entry_of c' (key en) = None ∧
       (entry_of c (key en) = Some en ∨
        (lst c = [] ∧ inserted (cacheTime c) o now = Some en)) ∧
       ∀ k, k ≠ key en → is_Some (entry_of c k) → is_Some (entry_of c' k)).
Proof.
  intros Hr o now w r c' w' Hex Ho.
  pose proof (reachable_wf zero _ _ Hr) as Hwf.
  destruct (exec_agrees zero c w o now Hwf) as (c1 & Hx & Hwf1 & _ & _ & _ & Hes).
  rewrite Hex in Hx. injection Hx as _ <- Hw.
  destruct (aexec_accounting (onEvicted c) (maxLen c) (cacheTime c) o now
              (entries c) w (NoDup_keys c Hwf) Ho)
    as [[Hw0 Hkeep]|(en & Hw1 & Hgone & Hwas & Hkeep)].
  - left. split; [congruence|]. intros k.
    rewrite <- (afind_entries c' k Hwf1), <- (afind_entries c k Hwf), Hes.
    apply Hkeep.
  - right. exists en. split; [congruence|].
    rewrite <- (afind_entries c' (key en) Hwf1), <- (afind_entries c (key en) Hwf), Hes.
    split; [done|]. split.
    + destruct Hwas as [?|[Hnil ?]]; [by left|right]. split; [|done].
      apply (f_equal length) in Hnil. rewrite (length_entries c Hwf) in Hnil.
      by destruct (lst c).
    + intros k.
      rewrite <- (afind_entries c' k Hwf1), <- (afind_entries c k Hwf), Hes.
      apply Hkeep.
Qed.

(** ** Inserts without reads: first in, first out *)

Lemma arun_app (cb : option callback) cap ttl tr1 tr2 (es : list entry) w :
  arun zero cb cap ttl (tr1 ++ tr2) es w
  = let x := arun zero cb cap ttl tr1 es w in
    let y := arun zero cb cap ttl tr2 x.1.2 x.2 in
    (x.1.1 ++ y.1.1, y.1.2, y.2).
Proof.
  revert es w. induction tr1 as [|[o now] tr1 IH]; intros es w; cbn [app arun].
  - cbv zeta. simpl. by destruct (arun _ _ _ _ _ _ _) as [[? ?] ?].
  - destruct (aexec _ _ _ _ _ _ _ _) as [[r es1] w1]. rewrite IH. cbv zeta.
    destruct (arun zero cb cap ttl tr1 es1 w1) as [[rs1 es2] w2]. simpl.
    by destruct (arun _ _ _ _ _ _ _) as [[? ?] ?].
Qed.

(** While there is room, [Put]s of new keys pile up in front, and the
    callback is not called. *)
Lemma arun_puts (cb : option callback) cap ttl (kvs : list (Key * Value * Time))
    (es : list entry) w :
  NoDup ((λ x, x.1.1) <$> kvs) →
  (∀ x, x ∈ kvs → afind x.1.1 es = None) →
  (Z.of_nat (length es + length kvs) ≤ cap)%Z →
  arun zero cb cap ttl (puts kvs) es w
  = (replicate (length kvs) RUnit, reverse (put_entry ttl <$> kvs) ++ es, w).
Proof.
  revert es. induction kvs as [|x kvs IH]; intros es Hnd Hnew Hcap; [done|].
  rewrite fmap_cons in Hnd. apply NoDup_cons in Hnd as [Hx Hnd].
  simpl in Hcap. cbn [puts fmap list_fmap arun aexec].
  rewrite aput_room by (apply Hnew; by left) || lia.
  change (list_fmap _ _ ?f kvs) with (f <$> kvs). fold (puts kvs).
  rewrite (IH (ListEntry x.1.1 x.1.2 (Add x.2 (clamp ttl)) :: es)).
  - rewrite reverse_cons, <- app_assoc. done.
  - done.
  - intros y Hy. rewrite afind_cons, decide_False.
    + apply Hnew. by right.
    + simpl. intros Heq. apply Hx. rewrite Heq. apply list_elem_of_fmap. by exists y.
  - simpl. lia.
Qed.

(** X9.  On a new cache whose capacity is the number of distinct keys
    put into it, one more [Put] of a further key evicts the key that was
    put first: the callback is called once, with that key and its value,
    that key is absent afterwards, and the other keys remain, the latest
    first.  No earlier [Put] calls the callback. *)
Theorem X9_first_in_first_out (cb : option callback) ttl
    (first : Key * Value * Time) (rest : list (Key * Value * Time)) k v now w :
  NoDup (k :: first.1.1 :: ((λ x, x.1.1) <$> rest)) →
  ∃ c',
    run zero (puts (first :: rest) ++ [(OpPut k v, now)])
      (NewCacheWithConfig (MkConfig (Z.of_nat (S (length rest))) cb ttl)) w
    = Some (replicate (S (S (length rest))) RUnit, c',
            match cb with Some f => f first.1.1 first.1.2 w | None => w end) ∧
    key <$> entries c' = k :: reverse ((λ x, x.1.1) <$> rest) ∧
    entry_of c' first.1.1 = None.
Proof.
  intros Hnd. apply NoDup_cons in Hnd as [Hk Hnd].
  set (cfg := MkConfig (Z.of_nat (S (length rest))) cb ttl).
  destruct (run_agrees zero (puts (first :: rest) ++ [(OpPut k v, now)])
              (NewCacheWithConfig cfg) w (wf_NewCacheWithConfig cfg))
    as (c' & Hx & Hwf' & _ & _ & _ & Hes).
  change (entries (NewCacheWithConfig cfg)) with (@nil entry) in *.
  change (onEvicted (NewCacheWithConfig cfg)) with cb in *.
  change (maxLen (NewCacheWithConfig cfg)) with (Z.of_nat (S (length rest))) in *.
  set (d := cacheTime (NewCacheWithConfig cfg)) in *.
  assert (arun zero cb (Z.of_nat (S (length rest))) d
            (puts (first :: rest) ++ [(OpPut k v, now)]) [] w
          = (replicate (S (S (length rest))) RUnit,
             ListEntry k v (Add now (clamp d)) :: reverse (put_entry d <$> rest),
             notify cb (put_entry d first) w)) as Harun.
  { rewrite arun_app, arun_puts; [|done|done|simpl; lia]. cbv zeta. cbn [fst snd].
    rewrite app_nil_r. cbn [arun aexec].
    rewrite aput_full.
    - rewrite fmap_cons, reverse_cons, last_last.
      change (?a :: ?l ++ [?x]) with ((a :: l) ++ [x]). rewrite removelast_last.
      cbn [length fst snd]. by rewrite <- replicate_S_end.
    - apply afind_None. intros en Hen Hkey. apply Hk.
      apply elem_of_reverse, list_elem_of_fmap in Hen as (x & -> & Hx0).
      simpl in Hkey. rewrite <- Hkey.
      change (first.1.1 :: ((λ x, x.1.1) <$> rest))
        with ((λ x : Key * Value * Time, x.1.1) <$> (first :: rest)).
      apply list_elem_of_fmap. by exists x.
    - rewrite length_reverse, length_fmap. simpl. lia. }
  rewrite Harun in Hx, Hes. simpl in Hx, Hes. exists c'.
  split; [exact Hx|]. rewrite Hes. split.
  - rewrite fmap_cons, fmap_reverse, <- list_fmap_compose. done.
  - rewrite <- (afind_entries c' _ Hwf'), Hes. apply afind_None.
    intros en Hen Hkey. apply elem_of_cons in Hen as [->|Hen].
    + simpl in Hkey. apply Hk. rewrite Hkey. by left.
    + apply elem_of_reverse, list_elem_of_fmap in Hen as (x & -> & Hx0).
      simpl in Hkey. apply NoDup_cons in Hnd as [Hf _]. apply Hf.
      rewrite <- Hkey. apply list_elem_of_fmap. by exists x.
Qed.

(** ** The cache that holds nothing *)



Lemma aexec_degenerate (cb : option callback) cap ttl o now w :
  (cap ≤ 0)%Z →
  (aexec zero cb cap ttl o now [] w).1 = (empty_exec zero o, []).
Proof.
  intros Hcap. destruct o as [k v|k v t|k|k| |]; try done.
  - simpl. unfold aput. simpl. by rewrite decide_True by lia.
  - simpl. unfold aput. simpl. by rewrite decide_True by lia.
Qed.

Lemma arun_degenerate (cb : option callback) cap ttl tr w :
  (cap ≤ 0)%Z →
  (arun zero cb cap ttl tr [] w).1 = (empty_exec zero ∘ fst <$> tr, []).
Proof.
  intros Hcap. revert w. induction tr as [|[o now] tr IH]; intros w; [done|].
  cbn [arun]. pose proof (aexec_degenerate cb cap ttl o now w Hcap) as Hex.
  destruct (aexec _ _ _ _ _ _ _ _) as [[r es1] w1]. simpl in Hex.
  injection Hex as -> ->. pose proof (IH w1) as Hrun.
  destruct (arun _ _ _ _ _ _ _) as [[rs es2] w2]. simpl in Hrun.
  by injection Hrun as -> ->.
Qed.

(** X13.  A cache built with [maxLen ≤ 0] retains nothing: every sequence
    of calls on it completes, leaves it without entries, and returns what
    the cache that holds nothing returns, call by call; if it was built
    without a callback it does not act on the world either. *)
Theorem X13_no_capacity_is_the_empty_cache (config : @Config Key Value World) :
  (MaxLen config ≤ 0)%Z →
  ∀ tr w,
    ∃ c' w',
      run zero tr (NewCacheWithConfig config) w
      = Some (empty_exec zero ∘ fst <$> tr, c', w') ∧
      lst c' = [] ∧ hash c' = ∅ ∧
      (Callback config = None → w' = w).
Proof.
  intros Hcap tr w.
  destruct (run_agrees zero tr (NewCacheWithConfig config) w
              (wf_NewCacheWithConfig config))
    as (c' & Hx & Hwf' & _ & _ & _ & Hes).
  change (entries (NewCacheWithConfig config)) with (@nil entry) in *.
  change (onEvicted (NewCacheWithConfig config)) with (Callback config) in *.
  change (maxLen (NewCacheWithConfig config)) with (MaxLen config) in *.
  pose proof (arun_degenerate (Callback config) (MaxLen config)
                (cacheTime (NewCacheWithConfig config)) tr w Hcap) as Hd.
  destruct (arun _ _ _ _ _ _ _) as [[rs es] w'] eqn:Har. simpl in *.
  injection Hd as -> ->.
  assert (lst c' = []) as Hl.
  { apply (f_equal length) in Hes. rewrite (length_entries c' Hwf') in Hes.
    by destruct (lst c'). }
  exists c', w'. split; [done|]. split; [done|]. split.
  - apply map_size_empty_inv. by rewrite (size_hash c' Hwf'), Hl.
  - intros Hcb. rewrite Hcb in Har. apply (f_equal snd) in Har.
    by rewrite arun_no_callback in Har.
Qed.

(** ** Within capacity *)

Lemma puts_within_capacity
    (config : @Config Key Value World) (kvs : list (Key * Value * Time)) w :
  NoDup ((λ x, x.1.1) <$> kvs) →
  (Z.of_nat (length kvs) ≤ MaxLen config)%Z →
  ∃ c',
    run zero (puts kvs) (NewCacheWithConfig config) w
    = Some (replicate (length kvs) RUnit, c', w) ∧
    key <$> entries c' = reverse ((λ x, x.1.1) <$> kvs) ∧
    ∀ x, x ∈ kvs →
      entry_of c' x.1.1 = Some (ListEntry x.1.1 x.1.2 (x.2 + Put_ttl config)%Z).
Proof.
  intros Hnd Hcap.
  destruct (run_agrees zero (puts kvs) (NewCacheWithConfig config) w
              (wf_NewCacheWithConfig config))
    as (c' & Hx & Hwf' & _ & _ & _ & Hes).
  change (entries (NewCacheWithConfig config)) with (@nil entry) in *.
  change (maxLen (NewCacheWithConfig config)) with (MaxLen config) in *.
  rewrite arun_puts in Hx, Hes by (done || (simpl; lia)).
  simpl in Hx, Hes. rewrite app_nil_r in Hes.
  exists c'. split; [exact Hx|]. split.
  - by rewrite Hes, fmap_reverse, <- list_fmap_compose.
  - intros x Hin. rewrite <- (afind_entries c' _ Hwf'), <- clamp_cacheTime.
    apply (afind_Some (entries c')
             (put_entry (cacheTime (NewCacheWithConfig config)) x)).
    + by apply NoDup_keys.
    + rewrite Hes. apply elem_of_reverse, list_elem_of_fmap. by exists x.
Qed.

(** X15.  On a new cache, [Put]s of distinct keys, no more of them than
    [maxLen], evict nothing: the callback is not called, the entries are
    those put, the latest first, and every key leads to its value with the
    deadline of its own [Put]. *)
Theorem X15_within_capacity_nothing_is_evicted
    (config : @Config Key Value World) (kvs : list (Key * Value * Time)) w :
  NoDup ((λ x, x.1.1) <$> kvs) →
  (Z.of_nat (length kvs) ≤ MaxLen config)%Z →
  ∃ c',
    run zero (puts kvs) (NewCacheWithConfig config) w
    = Some (replicate (length kvs) RUnit, c', w) ∧
    key <$> entries c' = reverse ((λ x, x.1.1) <$> kvs) ∧
    ∀ x, x ∈ kvs →
      entry_of c' x.1.1 = Some (ListEntry x.1.1 x.1.2 (x.2 + Put_ttl config)%Z).
Proof. apply puts_within_capacity. Qed.

(** X16.  On the cache [NewCache] builds, [Put]s of up to 10000 distinct
    keys evict nothing and never act on the world, and every key leads to
    its value with a deadline one minute after its [Put]. *)
Theorem X16_default_cache (kvs : list (Key * Value * Time)) w :
  NoDup ((λ x, x.1.1) <$> kvs) →
  (Z.of_nat (length kvs) ≤ 10000)%Z →
  ∃ c' : cache,
    run zero (puts kvs) NewCache w = Some (replicate (length kvs) RUnit, c', w) ∧
    maxLen c' = 10000%Z ∧ onEvicted c' = None ∧ cacheTime c' = Minute ∧
    ∀ x, x ∈ kvs →
      entry_of c' x.1.1 = Some (ListEntry x.1.1 x.1.2 (x.2 + Minute)%Z).
Proof.
  intros Hnd Hlen. unfold NewCache.
  set (config := MkConfig DefaultMaxLen None DefaultCacheTime).
  destruct (puts_within_capacity config kvs w Hnd)
    as (c' & Hx & _ & Hall).
  { simpl. unfold DefaultMaxLen. lia. }
  assert (reachable zero config c') as Hr.
  { eapply run_reachable; [apply reachable_new|exact Hx]. }
  destruct (reachable_inv zero config c' Hr) as (_ & Hm & Hcb & Ht & _).
  assert (Put_ttl config = Minute) as Httl by reflexivity.
  rewrite Httl in Hall.
  exists c'. split; [done|]. split; [done|]. split; [done|]. split; [done|].
  exact Hall.
Qed.

End more_facts.

(** * The claims on the instance *)

Lemma demo_after_reachable n tr : reachable 0%Z (demo_config n) (demo_after n tr).
Proof.
  unfold demo_after.
  destruct (run_total 0%Z (demo_config n) tr _ [] (reachable_new 0%Z _))
    as (rs & c' & w' & Hrun & Hr).
  by rewrite Hrun.
Qed.

(** C1, as the claim states it, fails: on a new cache of capacity 0, [Put 1 10]
    followed at the same instant by [Get 1] returns the zero value and
    found = false; the insert evicted its own entry and reported it. *)
Lemma C1_counterexample :
  observe (bind (Put 1%Z 10%Z 0%Z) (λ _, Get 0%Z 1%Z 0%Z)
             (NewCacheWithConfig (demo_config 0)) [])
  = Some ((0%Z, false), [(1%Z, 10%Z)]) ∧
  ¬ ∃ c' w',
      bind (Put 1%Z 10%Z 0%Z) (λ _, Get 0%Z 1%Z 0%Z)
        (NewCacheWithConfig (demo_config 0)) []
      = Some ((10%Z, true), c', w').
Proof.
  assert (observe (bind (Put 1%Z 10%Z 0%Z) (λ _, Get 0%Z 1%Z 0%Z)
                     (NewCacheWithConfig (demo_config 0)) [])
          = Some ((0%Z, false), [(1%Z, 10%Z)])) as Hobs
    by (vm_compute; reflexivity).
  split; [exact Hobs|].
  intros (c' & w' & Hx). rewrite Hx in Hobs. simpl in Hobs. discriminate.
Qed.

Lemma C1_put_then_get_witness :
  reachable 0%Z (demo_config 2) demo_one ∧
  (1 ≤ MaxLen (demo_config 2))%Z ∧
  ∃ c' w',
    bind (Put 7%Z 70%Z 5%Z) (λ _, Get 0%Z 7%Z 5%Z) demo_one []
    = Some ((70%Z, true), c', w').
Proof.
  split; [apply demo_after_reachable|]. split; [simpl; lia|].
  apply (C1_put_then_get 0%Z (demo_config 2) demo_one
           (demo_after_reachable 2 _) ltac:(simpl; lia) 7%Z 70%Z 0%Z 5%Z []).
Defined.

(** C3, as the claim states it, fails: on a new cache with [maxLen] = -1 the
    insert of a new key completes and leaves no entry, and 0 is not at most
    -1. *)
Lemma C3_counterexample :
  hash (NewCacheWithConfig (demo_config (-1))) !! 1%Z = None ∧
  PutWithTimeout 1%Z 10%Z 0%Z 0%Z (NewCacheWithConfig (demo_config (-1))) []
  = Some (tt, demo_after (-1) [(OpPutWithTimeout 1%Z 10%Z 0%Z, 0%Z)], [(1%Z, 10%Z)]) ∧
  ¬ (Z.of_nat (size (hash (demo_after (-1) [(OpPutWithTimeout 1%Z 10%Z 0%Z, 0%Z)])))
     ≤ maxLen (demo_after (-1) [(OpPutWithTimeout 1%Z 10%Z 0%Z, 0%Z)]))%Z.
Proof.
  split; [reflexivity|]. split; [vm_compute; reflexivity|].
  intros Hle. vm_compute in Hle. by apply Hle.
Qed.

Lemma C3_capacity_after_insert_witness :
  reachable 0%Z (demo_config 1) demo_full ∧
  hash demo_full !! 2%Z = None ∧
  ∃ c' w',
    PutWithTimeout 2%Z 20%Z 0%Z 0%Z demo_full [] = Some (tt, c', w') ∧
    (Z.of_nat (size (hash c')) ≤ 1)%Z.
Proof.
  split; [apply demo_after_reachable|]. split; [reflexivity|].
  destruct (C3_capacity_after_insert 0%Z (demo_config 1) demo_full
              (demo_after_reachable 1 _) 2%Z 20%Z 0%Z 0%Z [] eq_refl)
    as (c' & w' & Hx & Hb & _).
  exists c', w'. split; [exact Hx|exact Hb].
Defined.

Lemma C4_get_expires_lazily_witness :
  reachable 0%Z (demo_config 2) demo_one ∧
  hash demo_one !! 1%Z = Some 1%positive ∧
  elems demo_one !! 1%positive = Some demo_entry ∧
  (deadTime demo_entry < demo_late)%Z ∧
  (∃ c', Get 0%Z 1%Z demo_late demo_one []
         = Some ((0%Z, false), c', [(1%Z, 10%Z)]) ∧
         hash c' !! 1%Z = None ∧ 1%positive ∉ lst c') ∧
  hash demo_one !! 2%Z = None ∧
  Get 0%Z 2%Z demo_late demo_one [] = Some ((0%Z, false), demo_one, []) ∧
  forget demo_one_later = forget demo_one ∧
  blind (exec 0%Z (OpDel 1%Z) 0%Z demo_one [])
  = blind (exec 0%Z (OpDel 1%Z) demo_late demo_one_later []).
Proof.
  pose proof (C4_get_expires_lazily 0%Z (demo_config 2) demo_one
                (demo_after_reachable 2 _) 1%Z demo_late []) as (Hexp & _ & Hblind).
  pose proof (C4_get_expires_lazily 0%Z (demo_config 2) demo_one
                (demo_after_reachable 2 _) 2%Z demo_late []) as (_ & Habs & _).
  assert (forget demo_one_later = forget demo_one) as Hf by (vm_compute; reflexivity).
  split; [apply demo_after_reachable|].
  split; [reflexivity|]. split; [reflexivity|]. split; [reflexivity|].
  split.
  - destruct (Hexp 1%positive demo_entry eq_refl eq_refl eq_refl)
      as (c' & Hx & _ & _ & Hk & _ & Hl & _).
    exists c'. split; [exact Hx|]. split; [exact Hk|exact Hl].
  - split; [reflexivity|]. split; [exact (Habs eq_refl)|].
    split; [exact Hf|].
    exact (Hblind (OpDel 1%Z) demo_one_later 0%Z demo_late eq_refl Hf).
Defined.

Lemma C5_lru_order_witness :
  (1 ≠ 2)%Z ∧ (1 ≠ 3)%Z ∧ (2 ≠ 3)%Z ∧
  (0 ≤ Put_deadline (MkConfig 2 (Some logged) 0) 0)%Z ∧
  ∃ c',
    run 0%Z
      [(OpPut 1 10, 0); (OpPut 2 20, 0); (OpGet 1, 0); (OpPut 3 30, 0);
       (OpGet 1, 0); (OpGet 2, 0); (OpGet 3, 0)]%Z
      (NewCacheWithConfig (MkConfig 2%Z (Some logged) 0%Z)) []
    = Some ([RUnit; RUnit; RGet 10 true; RUnit;
             RGet 10 true; RGet 0 false; RGet 30 true]%Z,
            c', [(2, 20)]%Z) ∧
    key <$> entries c' = [3; 1]%Z ∧
    Z.of_nat (size (hash c')) = 2%Z.
Proof.
  assert (0 ≤ Put_deadline (MkConfig 2 (Some logged) 0) 0)%Z as Ht
    by (vm_compute; discriminate).
  split; [lia|]. split; [lia|]. split; [lia|]. split; [exact Ht|].
  exact (C5_lru_order 0%Z (Some logged) 0%Z 1%Z 2%Z 3%Z 10%Z 20%Z 30%Z
           0%Z 0%Z 0%Z 0%Z 0%Z 0%Z 0%Z []
           ltac:(lia) ltac:(lia) ltac:(lia) Ht Ht Ht).
Defined.

Lemma C6_ttl_at_least_one_second_witness :
  reachable 0%Z (demo_config 2) demo_one ∧
  (Millisecond < Second)%Z ∧
  PutWithTimeout 5%Z 50%Z Millisecond 0%Z demo_one []
  = PutWithTimeout 5%Z 50%Z Second 0%Z demo_one [] ∧
  (1 ≤ MaxLen (demo_config 2))%Z ∧
  ∃ c' w',
    PutWithTimeout 5%Z 50%Z Millisecond 0%Z demo_one [] = Some (tt, c', w') ∧
    entry_of c' 5%Z = Some (ListEntry 5%Z 50%Z (0 + Z.max Millisecond Second)%Z).
Proof.
  assert (Millisecond < Second)%Z as Hlt by reflexivity.
  assert (1 ≤ MaxLen (demo_config 2))%Z as Hcap by (simpl; lia).
  destruct (C6_ttl_at_least_one_second 0%Z (demo_config 2) demo_one
              (demo_after_reachable 2 _) 5%Z 50%Z Millisecond 0%Z [])
    as (_ & Hsec & c' & w' & Hx & _ & Hget).
  split; [apply demo_after_reachable|]. split; [exact Hlt|].
  split; [exact (Hsec Hlt)|]. split; [exact Hcap|].
  exists c', w'. split; [exact Hx|]. exact (proj1 (Hget Hcap)).
Defined.

Lemma C7_get_only_promotes_witness :
  reachable 0%Z (demo_config 2) demo_one ∧
  hash demo_one !! 1%Z = Some 1%positive ∧
  elems demo_one !! 1%positive = Some demo_entry ∧
  ¬ (deadTime demo_entry < 0)%Z ∧
  ∃ c', Get 0%Z 1%Z 0%Z demo_one [] = Some ((10%Z, true), c', []) ∧
        elems c' = elems demo_one ∧ hash c' = hash demo_one ∧
        lst c' ≡ₚ lst demo_one.
Proof.
  assert (¬ (deadTime demo_entry < 0)%Z) as Hd by (simpl; lia).
  split; [apply demo_after_reachable|].
  split; [reflexivity|]. split; [reflexivity|]. split; [exact Hd|].
  destruct (C7_get_only_promotes 0%Z (demo_config 2) demo_one
              (demo_after_reachable 2 _) 1%Z 0%Z [] 1%positive demo_entry
              eq_refl eq_refl Hd)
    as (c' & Hx & Hel & Hh & _ & Hp & _).
  exists c'. split; [exact Hx|]. split; [exact Hel|]. split; [exact Hh|exact Hp].
Defined.

Lemma C8_del_witness :
  reachable 0%Z (demo_config 2) demo_one ∧
  hash demo_one !! 1%Z = Some 1%positive ∧
  elems demo_one !! 1%positive = Some demo_entry ∧
  (∃ c', Del 0%Z 1%Z demo_one [] = Some (10%Z, c', [(1%Z, 10%Z)]) ∧
         hash c' !! 1%Z = None ∧ 1%positive ∉ lst c') ∧
  hash demo_one !! 2%Z = None ∧
  Del 0%Z 2%Z demo_one [] = Some (0%Z, demo_one, []).
Proof.
  pose proof (C8_del 0%Z (demo_config 2) demo_one
                (demo_after_reachable 2 _) 1%Z []) as (Hpres & _).
  pose proof (C8_del 0%Z (demo_config 2) demo_one
                (demo_after_reachable 2 _) 2%Z []) as (_ & Habs).
  split; [apply demo_after_reachable|].
  split; [reflexivity|]. split; [reflexivity|]. split.
  - destruct (Hpres 1%positive demo_entry eq_refl eq_refl)
      as (c' & Hx & _ & _ & Hk & _ & Hl & _).
    exists c'. split; [exact Hx|]. split; [exact Hk|exact Hl].
  - split; [reflexivity|]. exact (Habs eq_refl).
Defined.

Lemma C9_close_resets_witness :
  reachable 0%Z (demo_config 2) demo_one ∧
  ∃ c', Close demo_one [] = Some (tt, c', []) ∧
        hash c' = ∅ ∧ lst c' = [] ∧ Len c' [] = Some (0%Z, c', []) ∧
        observe (run 0%Z [(OpGet 1%Z, 0%Z); (OpPut 1%Z 11%Z, 0%Z)] c' [])
        = observe (run 0%Z [(OpGet 1%Z, 0%Z); (OpPut 1%Z 11%Z, 0%Z)]
                     (NewCacheWithConfig (demo_config 2)) []).
Proof.
  split; [apply demo_after_reachable|].
  destruct (C9_close_resets 0%Z (demo_config 2) demo_one
              (demo_after_reachable 2 _) [])
    as (c' & Hx & Hh & Hl & Hlen & Hobs).
  exists c'. split; [exact Hx|]. split; [exact Hh|]. split; [exact Hl|].
  split; [exact Hlen|]. apply Hobs.
Defined.

Lemma C10_del_ignores_expiry_witness :
  reachable 0%Z (demo_config 2) demo_one ∧
  hash demo_one !! 1%Z = Some 1%positive ∧
  elems demo_one !! 1%positive = Some demo_entry ∧
  (deadTime demo_entry < demo_late)%Z ∧
  Del 0%Z 1%Z demo_one []
  = Some (10%Z, unlink 1%positive demo_entry demo_one, [(1%Z, 10%Z)]) ∧
  Get 0%Z 1%Z demo_late demo_one []
  = Some ((0%Z, false), unlink 1%positive demo_entry demo_one, [(1%Z, 10%Z)]).
Proof.
  split; [apply demo_after_reachable|].
  split; [reflexivity|]. split; [reflexivity|]. split; [reflexivity|].
  exact (C10_del_ignores_expiry 0%Z (demo_config 2) demo_one
           (demo_after_reachable 2 _) 1%Z demo_late [] 1%positive demo_entry
           eq_refl eq_refl eq_refl).
Defined.

(** * The further properties on the instance *)

Lemma X1_put_time_to_live_witness :
  reachable 0%Z (demo_config 2) demo_one ∧
  (1 ≤ MaxLen (demo_config 2))%Z ∧
  ∃ c' w',
    Put 5%Z 50%Z 3%Z demo_one [] = Some (tt, c', w') ∧
    entry_of c' 5%Z = Some (ListEntry 5%Z 50%Z (3 + Put_ttl (demo_config 2))%Z).
Proof.
  assert (1 ≤ MaxLen (demo_config 2))%Z as Hcap by (simpl; lia).
  split; [apply demo_after_reachable|]. split; [exact Hcap|].
  destruct (X1_put_time_to_live 0%Z (demo_config 2) demo_one
              (demo_after_reachable 2 _) 5%Z 50%Z 3%Z [])
    as (c' & w' & Hx & _ & Hen).
  exists c', w'. split; [exact Hx|exact (Hen Hcap)].
Defined.

Lemma X2_configuration_is_fixed_witness :
  reachable 0%Z (demo_config 2) demo_other ∧
  maxLen demo_other = 2%Z ∧ onEvicted demo_other = Some logged ∧
  cacheTime demo_other = Minute ∧ (Millisecond ≤ cacheTime demo_other)%Z.
Proof.
  split; [apply demo_after_reachable|].
  exact (X2_configuration_is_fixed 0%Z (demo_config 2) demo_other
           (demo_after_reachable 2 _)).
Defined.

Lemma X3_len_counts_all_entries_witness :
  reachable 0%Z (demo_config 2) demo_one ∧
  Len demo_one [] = Some (Z.of_nat (length (lst demo_one)), demo_one, []) ∧
  length (lst demo_one) = 1.
Proof.
  split; [apply demo_after_reachable|]. split; [|reflexivity].
  exact (proj1 (X3_len_counts_all_entries 0%Z (demo_config 2) demo_one
                  (demo_after_reachable 2 _) [])).
Defined.

Lemma X4_put_existing_updates_witness :
  reachable 0%Z (demo_config 2) demo_one ∧
  hash demo_one !! 1%Z = Some 1%positive ∧
  elems demo_one !! 1%positive = Some demo_entry ∧
  ∃ c',
    PutWithTimeout 1%Z 11%Z 0%Z 7%Z demo_one [] = Some (tt, c', []) ∧
    hash c' = hash demo_one ∧
    entry_of c' 1%Z = Some (ListEntry 1%Z 11%Z (7 + Z.max 0 Second)%Z).
Proof.
  split; [apply demo_after_reachable|]. split; [reflexivity|]. split; [reflexivity|].
  destruct (X4_put_existing_updates 0%Z (demo_config 2) demo_one
              (demo_after_reachable 2 _) 1%Z 11%Z 0%Z 7%Z [] 1%positive demo_entry
              eq_refl eq_refl)
    as (c' & Hx & Hh & _ & _ & Hen & _).
  exists c'. split; [exact Hx|]. split; [exact Hh|exact Hen].
Defined.

Lemma demo_full_exec :
  exec 0%Z (OpPut 2%Z 20%Z) 0%Z demo_full []
  = Some (RUnit, demo_full_next, [(1%Z, 10%Z)]).
Proof. vm_compute. reflexivity. Qed.

Lemma X5_other_keys_keep_their_entries_witness :
  reachable 0%Z (demo_config 1) demo_full ∧
  exec 0%Z (OpPut 2%Z 20%Z) 0%Z demo_full []
  = Some (RUnit, demo_full_next, [(1%Z, 10%Z)]) ∧
  key_of (OpPut 2%Z 20%Z) = Some 2%Z ∧ (1 ≠ 2)%Z ∧
  (entry_of demo_full_next 1%Z = entry_of demo_full 1%Z ∨
   (entry_of demo_full_next 1%Z = None ∧ entry_of demo_full 2%Z = None ∧
    is_Some (inserted (cacheTime demo_full) (OpPut 2%Z 20%Z) 0%Z) ∧
    (maxLen demo_full ≤ Z.of_nat (length (lst demo_full)))%Z ∧
    ∃ e', List_.Back (lst demo_full) = Some e' ∧ hash demo_full !! 1%Z = Some e')).
Proof.
  assert (1 ≠ 2)%Z as Hne by lia.
  split; [apply demo_after_reachable|]. split; [exact demo_full_exec|].
  split; [reflexivity|]. split; [exact Hne|].
  exact (X5_other_keys_keep_their_entries 0%Z (demo_config 1) demo_full
           (demo_after_reachable 1 _) (OpPut 2%Z 20%Z) 0%Z [] RUnit
           demo_full_next [(1%Z, 10%Z)] 2%Z 1%Z demo_full_exec eq_refl Hne).
Defined.

Lemma X6_callback_once_per_removal_witness :
  reachable 0%Z (demo_config 1) demo_full ∧
  exec 0%Z (OpPut 2%Z 20%Z) 0%Z demo_full []
  = Some (RUnit, demo_full_next, [(1%Z, 10%Z)]) ∧
  OpPut 2%Z 20%Z ≠ OpClose ∧
  (([(1%Z, 10%Z)] = [] ∧
    ∀ k, is_Some (entry_of demo_full k) → is_Some (entry_of demo_full_next k)) ∨
   (∃ en,
      [(1%Z, 10%Z)] = notify (onEvicted demo_full) en [] ∧
      entry_of demo_full_next (key en) = None ∧
      (entry_of demo_full (key en) = Some en ∨
       (lst demo_full = [] ∧
        inserted (cacheTime demo_full) (OpPut 2%Z 20%Z) 0%Z = Some en)) ∧
      ∀ k, k ≠ key en →
           is_Some (entry_of demo_full k) → is_Some (entry_of demo_full_next k))).
Proof.
  assert (OpPut 2%Z 20%Z ≠ @OpClose Z Z) as Hne by discriminate.
  split; [apply demo_after_reachable|]. split; [exact demo_full_exec|].
  split; [exact Hne|].
  exact (X6_callback_once_per_removal 0%Z (demo_config 1) demo_full
           (demo_after_reachable 1 _) (OpPut 2%Z 20%Z) 0%Z [] RUnit
           demo_full_next [(1%Z, 10%Z)] demo_full_exec Hne).
Defined.

Lemma X7_no_callback_no_effect_witness :
  reachable 0%Z demo_quiet (NewCacheWithConfig demo_quiet) ∧
  Callback demo_quiet = None ∧
  ∃ rs c',
    run 0%Z [(OpPut 1 10, 0); (OpPut 2 20, 0); (OpPut 3 30, 0); (OpDel 2, 0)]%Z
      (NewCacheWithConfig demo_quiet) []
    = Some (rs, c', []).
Proof.
  split; [apply reachable_new|]. split; [reflexivity|].
  exact (X7_no_callback_no_effect 0%Z demo_quiet (NewCacheWithConfig demo_quiet)
           (reachable_new 0%Z demo_quiet) eq_refl _ []).
Defined.

Lemma X8_del_leaves_key_absent_witness :
  reachable 0%Z (demo_config 2) demo_one ∧
  ∃ v c1 w1,
    Del 0%Z 1%Z demo_one [] = Some (v, c1, w1) ∧
    entry_of c1 1%Z = None ∧
    Del 0%Z 1%Z c1 w1 = Some (0%Z, c1, w1) ∧
    ∀ now, Get 0%Z 1%Z now c1 w1 = Some ((0%Z, false), c1, w1).
Proof.
  split; [apply demo_after_reachable|].
  exact (X8_del_leaves_key_absent 0%Z (demo_config 2) demo_one
           (demo_after_reachable 2 _) 1%Z []).
Defined.

Lemma X9_first_in_first_out_witness :
  NoDup [3; 1; 2]%Z ∧
  ∃ c',
    run 0%Z (puts [(1, 10, 0); (2, 20, 0)]%Z ++ [(OpPut 3 30, 0)]%Z)
      (NewCacheWithConfig (MkConfig 2%Z (Some logged) 0%Z)) []
    = Some ([RUnit; RUnit; RUnit], c', [(1, 10)]%Z) ∧
    key <$> entries c' = [3; 2]%Z ∧
    entry_of c' 1%Z = None.
Proof.
  assert (NoDup [3; 1; 2]%Z) as Hnd by compute_done.
  split; [exact Hnd|].
  exact (X9_first_in_first_out 0%Z (Some logged) 0%Z (1, 10, 0)%Z [(2, 20, 0)%Z]
           3%Z 30%Z 0%Z [] Hnd).
Defined.

Lemma X10_entries_determine_behaviour_witness :
  reachable 0%Z (demo_config 2) demo_one ∧
  reachable 0%Z (demo_config 2) demo_other ∧
  entries demo_one = entries demo_other ∧
  lst demo_one ≠ lst demo_other ∧
  observe (run 0%Z [(OpGet 1, 5); (OpPut 3 30, 6); (OpLen, 7)]%Z demo_one [])
  = observe (run 0%Z [(OpGet 1, 5); (OpPut 3 30, 6); (OpLen, 7)]%Z demo_other []).
Proof.
  assert (entries demo_one = entries demo_other) as Hes by (vm_compute; reflexivity).
  split; [apply demo_after_reachable|]. split; [apply demo_after_reachable|].
  split; [exact Hes|]. split; [vm_compute; discriminate|].
  exact (X10_entries_determine_behaviour 0%Z (demo_config 2) (demo_config 2)
           demo_one demo_other (demo_after_reachable 2 _) (demo_after_reachable 2 _)
           eq_refl eq_refl eq_refl Hes _ []).
Defined.

Lemma X13_no_capacity_is_the_empty_cache_witness :
  (MaxLen (demo_config 0) ≤ 0)%Z ∧
  ∃ c' w',
    run 0%Z [(OpPut 1 10, 0); (OpGet 1, 0); (OpLen, 0)]%Z
      (NewCacheWithConfig (demo_config 0)) []
    = Some ([RUnit; RGet 0%Z false; RLen 0%Z], c', w') ∧
    lst c' = [] ∧ hash c' = ∅.
Proof.
  assert (MaxLen (demo_config 0) ≤ 0)%Z as Hcap by (simpl; lia).
  split; [exact Hcap|].
  destruct (X13_no_capacity_is_the_empty_cache 0%Z (demo_config 0) Hcap
              [(OpPut 1 10, 0); (OpGet 1, 0); (OpLen, 0)]%Z [])
    as (c' & w' & Hx & Hl & Hh & _).
  exists c', w'. split; [exact Hx|]. split; [exact Hl|exact Hh].
Defined.

Lemma X14_put_then_del_witness :
  reachable 0%Z (demo_config 2) demo_one ∧
  (1 ≤ MaxLen (demo_config 2))%Z ∧
  ∃ c1 w1 c2,
    PutWithTimeout 5%Z 50%Z 0%Z 0%Z demo_one [] = Some (tt, c1, w1) ∧
    Del 0%Z 5%Z c1 w1 = Some (50%Z, c2, logged 5%Z 50%Z w1) ∧
    entry_of c2 5%Z = None.
Proof.
  assert (1 ≤ MaxLen (demo_config 2))%Z as Hcap by (simpl; lia).
  split; [apply demo_after_reachable|]. split; [exact Hcap|].
  exact (X14_put_then_del 0%Z (demo_config 2) demo_one
           (demo_after_reachable 2 _) Hcap 5%Z 50%Z 0%Z 0%Z []).
Defined.

Lemma X15_within_capacity_nothing_is_evicted_witness :
  NoDup [1; 2]%Z ∧
  (Z.of_nat (length [(1, 10, 0); (2, 20, 5)]%Z) ≤ MaxLen (demo_config 2))%Z ∧
  ∃ c',
    run 0%Z (puts [(1, 10, 0); (2, 20, 5)]%Z) (NewCacheWithConfig (demo_config 2)) []
    = Some ([RUnit; RUnit], c', []) ∧
    key <$> entries c' = [2; 1]%Z.
Proof.
  assert (NoDup [1; 2]%Z) as Hnd by compute_done.
  assert (Z.of_nat (length [(1, 10, 0); (2, 20, 5)]%Z) ≤ MaxLen (demo_config 2))%Z
    as Hcap by (simpl; lia).
  split; [exact Hnd|]. split; [exact Hcap|].
  destruct (X15_within_capacity_nothing_is_evicted 0%Z (demo_config 2)
              [(1, 10, 0); (2, 20, 5)]%Z [] Hnd Hcap)
    as (c' & Hx & Hkeys & _).
  exists c'. split; [exact Hx|exact Hkeys].
Defined.

Lemma X16_default_cache_witness :
  NoDup [1; 2]%Z ∧
  (Z.of_nat (length [(1, 10, 0); (2, 20, 5)]%Z) ≤ 10000)%Z ∧
  ∃ c' : @lruCache Z _ _ Z calls,
    run 0%Z (puts [(1, 10, 0); (2, 20, 5)]%Z) NewCache []
    = Some ([RUnit; RUnit], c', []) ∧
    entry_of c' 2%Z = Some (ListEntry 2%Z 20%Z (5 + Minute)%Z).
Proof.
  assert (NoDup [1; 2]%Z) as Hnd by compute_done.
  assert (Z.of_nat (length [(1, 10, 0); (2, 20, 5)]%Z) ≤ 10000)%Z
    as Hcap by (simpl; lia).
  split; [exact Hnd|]. split; [exact Hcap|].
  destruct (X16_default_cache (World:=calls) 0%Z [(1, 10, 0); (2, 20, 5)]%Z [] Hnd Hcap)
    as (c' & Hx & _ & _ & _ & Hall).
  exists c'. split; [exact Hx|].
  apply (Hall (2, 20, 5)%Z). apply list_elem_of_In. simpl. auto.
Defined.

